(** * lldb-mi: the stdin line reader [CMICmnStreamStdinLinux]

    A shallow embedding of [lldb/tools/lldb-mi/MICmnStreamStdinLinux.cpp]:
    the reader object, the C library calls it makes on [stdin], its
    methods as built for Linux, and the polling loop of [InputAvailable]
    run against a second thread that may call [InterruptReadLine] at any
    moment. *)

From Stdlib Require Import ZArith List Strings.String Strings.Byte Bool Lia.
From stdpp Require Import base option gmap list.

(** ** Status codes and bytes *)

Module MIstatus.
Definition success : bool := true.
Definition failure : bool := false.
End MIstatus.

(** [MIchar] is [char]; the three bytes the code compares against. *)
Definition MIchar : Type := byte.
Definition NUL : MIchar := x00.
Definition LF : MIchar := x0a.
Definition CR : MIchar := x0d.

(** ** Outcomes of calls that may leave defined behaviour *)

Inductive fault : Type :=
| NullBufferAccess   (* a null [MIchar *] handed to the C library *)
| NullStreamAccess   (* a null [FILE *] handed to the C library *)
| UseAfterFree       (* a pointer to a block that was [delete[]]d *)
| BufferOverrun.     (* an access past the end of a live block *)

Inductive outcome (A : Type) : Type :=
| Ok (a : A)
| Undefined (f : fault).
Arguments Ok {A} a.
Arguments Undefined {A} f.

#[global] Instance outcome_bind : MBind outcome :=
  fun A B (k : A -> outcome B) (m : outcome A) =>
    match m with
    | Ok a => k a
    | Undefined f => Undefined f
    end.

(** ** The C library on [stdin] *)

(** What the stream does once its pending bytes are used up. *)
Inductive stream_end : Type :=
| EndOfFile
| ReadError (e : Z).

Record FILE : Type := mkFILE {
  f_pending : list MIchar;   (* bytes the stream will deliver, in order *)
  f_end : stream_end;        (* what follows them *)
  f_eof : bool;              (* end-of-file indicator *)
  f_err : bool               (* error indicator *)
}.

Definition clearerr (f : FILE) : FILE :=
  mkFILE (f_pending f) (f_end f) false false.

Definition ferror (f : FILE) : Z := if f_err f then 1%Z else 0%Z.

Inductive stop : Type := AtNewline | AtCount | AtEnd.

(** The transfer loop of [fgets]: at most [count] bytes, none after a
    new-line, which is kept. *)
Fixpoint getline (count : nat) (s : list MIchar)
  : list MIchar * list MIchar * stop :=
  match count with
  | O => ([], s, AtCount)
  | S c =>
      match s with
      | [] => ([], [], AtEnd)
      | b :: s' =>
          if Byte.eqb b LF then ([b], s', AtNewline)
          else let '(l, r, k) := getline c s' in (b :: l, r, k)
      end
  end.

(** Writing [bs] at the start of the array [buf]. *)
Definition store (bs buf : list MIchar) : outcome (list MIchar) :=
  if (length bs <=? length buf)%nat then Ok (bs ++ drop (length bs) buf)
  else Undefined BufferOverrun.

Record fgets_result : Type := mk_fgets {
  fg_ret : bool;             (* [true]: returns [s]; [false]: returns NULL *)
  fg_buf : list MIchar;      (* the array afterwards *)
  fg_file : FILE;
  fg_errno : Z
}.

(** The value of [EAGAIN] on Linux. *)
Definition EAGAIN : Z := 11.

(** [fgets(s, n, stream)] on an array [buf] at [s] (ISO C 7.21.7.2, as the
    GNU C library implements it). With [n = 1] nothing is read. A stream
    whose end-of-file indicator is set delivers nothing more. A read error
    gives NULL, with the bytes transferred so far left in the array,
    unless bytes were read and [errno] is [EAGAIN]: then those bytes are
    returned and the error shows at the next read. *)
Definition fgets (buf : list MIchar) (n : Z) (f : FILE) (errno : Z)
  : outcome fgets_result :=
  if (n <=? 0)%Z then Ok (mk_fgets false buf f errno)
  else if f_eof f && (1 <? n)%Z then Ok (mk_fgets false buf f errno)
  else
    let '(chunk, rest, k) := getline (Z.to_nat (n - 1)) (f_pending f) in
    let delivered eof err := mkFILE rest (f_end f) eof err in
    match k, f_end f with
    | AtEnd, ReadError e =>
        match chunk with
        | [] => Ok (mk_fgets false buf (delivered (f_eof f) true) e)
        | _ =>
            if (e =? EAGAIN)%Z then
              buf' ← store (chunk ++ [NUL]) buf;
              Ok (mk_fgets true buf' (delivered (f_eof f) true) e)
            else
              buf' ← store chunk buf;
              Ok (mk_fgets false buf' (delivered (f_eof f) true) e)
        end
    | AtEnd, EndOfFile =>
        match chunk with
        | [] => Ok (mk_fgets false buf (delivered true (f_err f)) errno)
        | _ =>
            buf' ← store (chunk ++ [NUL]) buf;
            Ok (mk_fgets true buf' (delivered true (f_err f)) errno)
        end
    | _, _ =>
        buf' ← store (chunk ++ [NUL]) buf;
        Ok (mk_fgets true buf' (delivered (f_eof f) (f_err f)) errno)
    end.

(** The C string held by an array: the bytes before its first NUL. *)
Fixpoint cstr (buf : list MIchar) : list MIchar :=
  match buf with
  | [] => []
  | b :: t => if Byte.eqb b NUL then [] else b :: cstr t
  end.

(** ** The heap *)

Definition addr : Type := nat.

(** [new MIchar[n]]: a fresh block of [n] bytes (their values are
    indeterminate in C++; nothing below depends on them). *)
Definition new_array (n : Z) (h : gmap addr (list MIchar))
  : addr * gmap addr (list MIchar) :=
  let a := fresh (dom h) in
  (a, <[a := replicate (Z.to_nat n) NUL]> h).

(** [delete[] p]. *)
Definition delete_array (a : addr) (h : gmap addr (list MIchar))
  : gmap addr (list MIchar) := delete a h.

(** ** Collaborators that live outside this file *)

(** The template argument of [MI::ModuleInit<T>] / [MI::ModuleShutdown<T>]. *)
Inductive module_kind : Type := CMICmnLog | CMICmnResources.

Inductive resource_id : Type :=
| IDS_MI_INIT_ERR_LOG
| IDS_MI_INIT_ERR_RESOURCES
| IDS_MI_INIT_ERR_OS_STDIN_HANDLER
| IDS_MI_SHTDWN_ERR_OS_STDIN_HANDLER.

(** [MI::ModuleInit], [MI::ModuleShutdown] (MIUtilSingletonHelper.h), the
    resource table behind [MIRSRC], [CMIUtilString::Format] and
    [strerror] are not part of the translated file: they are parameters.
    [ModuleInit] and [ModuleShutdown] take and give back the state of the
    module singletons together with their two reference arguments
    [bOk] and [errMsg]. *)
Class Externals : Type := {
  Registry : Type;
  ModuleInit : module_kind -> resource_id ->
               Registry * bool * string -> Registry * bool * string;
  ModuleShutdown : module_kind -> resource_id ->
                   Registry * bool * string -> Registry * bool * string;
  MIRSRC : resource_id -> string;
  Format : string -> string -> string;
  strerror : Z -> string
}.

(** ** The reader object *)

Inductive FILE_ptr : Type := stdin_ptr.

Record CMICmnStreamStdinLinux : Type := mkReader {
  m_bInitialized : bool;             (* CMICmnBase *)
  m_strErrorDescription : string;    (* CMICmnBase *)
  m_constBufferSize : Z;
  m_pStdin : option FILE_ptr;        (* [None] is [nullptr] *)
  m_pCmdBuffer : option addr;        (* [None] is [nullptr] *)
  m_waitForInput : bool
}.

(** Modelled from the spec: the members inherited from [CMICmnBase]
    (its header is not among the sources) start as "not initialized" and
    "no error recorded"; the other four are the constructor's initialisers. *)
Definition ctor : CMICmnStreamStdinLinux :=
  mkReader false EmptyString 1024 None None true.

(** Modelled from the spec: [CMICmnBase::SetErrorDescription],
    [ClrErrorDescription] and [SetErrorDescriptionn], the settable and
    clearable last-error string of the instance; the last one formats first. *)
Definition SetErrorDescription (s : string) (r : CMICmnStreamStdinLinux) :=
  mkReader (m_bInitialized r) s (m_constBufferSize r)
           (m_pStdin r) (m_pCmdBuffer r) (m_waitForInput r).

Definition ClrErrorDescription (r : CMICmnStreamStdinLinux) :=
  SetErrorDescription EmptyString r.

Definition SetErrorDescriptionn `{Externals} (fmt arg : string)
  (r : CMICmnStreamStdinLinux) :=
  SetErrorDescription (Format fmt arg) r.

Definition set_bInitialized (b : bool) (r : CMICmnStreamStdinLinux) :=
  mkReader b (m_strErrorDescription r) (m_constBufferSize r)
           (m_pStdin r) (m_pCmdBuffer r) (m_waitForInput r).

Definition set_pStdin (p : option FILE_ptr) (r : CMICmnStreamStdinLinux) :=
  mkReader (m_bInitialized r) (m_strErrorDescription r) (m_constBufferSize r)
           p (m_pCmdBuffer r) (m_waitForInput r).

Definition set_pCmdBuffer (p : option addr) (r : CMICmnStreamStdinLinux) :=
  mkReader (m_bInitialized r) (m_strErrorDescription r) (m_constBufferSize r)
           (m_pStdin r) p (m_waitForInput r).

Definition set_waitForInput (b : bool) (r : CMICmnStreamStdinLinux) :=
  mkReader (m_bInitialized r) (m_strErrorDescription r) (m_constBufferSize r)
           (m_pStdin r) (m_pCmdBuffer r) b.

(** Everything a method can read or write: the object, the heap, the
    process-wide [stdin] and [errno], and the module singletons. *)
Record World {E : Externals} : Type := mkWorld {
  w_this : CMICmnStreamStdinLinux;
  w_heap : gmap addr (list MIchar);
  w_stdin : FILE;
  w_errno : Z;
  w_registry : Registry
}.
Arguments mkWorld {E} _ _ _ _ _.

Section Methods.
Context `{E : Externals}.

Definition with_this (r : CMICmnStreamStdinLinux) (w : World) : World :=
  mkWorld r (w_heap w) (w_stdin w) (w_errno w) (w_registry w).

(** [CMICmnStreamStdinLinux::Initialize]. *)
Definition Initialize (w : World) : bool * World :=
  let this := w_this w in
  if m_bInitialized this then (MIstatus.success, w)
  else
    let '(reg1, bOk1, errMsg1) :=
      ModuleInit CMICmnLog IDS_MI_INIT_ERR_LOG
                 (w_registry w, MIstatus.success, EmptyString) in
    let '(reg2, bOk, errMsg) :=
      ModuleInit CMICmnResources IDS_MI_INIT_ERR_RESOURCES
                 (reg1, bOk1, errMsg1) in
    let '(this1, heap1) :=
      if bOk then
        let '(a, h) := new_array (m_constBufferSize this) (w_heap w) in
        (set_pStdin (Some stdin_ptr) (set_pCmdBuffer (Some a) this), h)
      else (this, w_heap w) in
    let stdin1 := clearerr (w_stdin w) in
    let this2 := set_bInitialized bOk this1 in
    if negb bOk then
      let strInitError :=
        Format (MIRSRC IDS_MI_INIT_ERR_OS_STDIN_HANDLER) errMsg in
      (MIstatus.failure,
       mkWorld (SetErrorDescription strInitError this2)
               heap1 stdin1 (w_errno w) reg2)
    else
      (MIstatus.success, mkWorld this2 heap1 stdin1 (w_errno w) reg2).

(** [CMICmnStreamStdinLinux::Shutdown]. Freeing a block that is not live
    is outside defined behaviour. *)
Definition Shutdown (w : World) : outcome (bool * World) :=
  let this := w_this w in
  if negb (m_bInitialized this) then Ok (MIstatus.success, w)
  else
    let this1 := ClrErrorDescription (set_bInitialized false this) in
    heap1 ← match m_pCmdBuffer this1 with
             | Some a =>
                 match w_heap w !! a with
                 | Some _ => Ok (delete_array a (w_heap w))
                 | None => Undefined UseAfterFree
                 end
             | None => Ok (w_heap w)
             end;
    let this2 := set_pStdin None (set_pCmdBuffer None this1) in
    let '(reg1, bOk1, errMsg1) :=
      ModuleShutdown CMICmnResources IDS_MI_INIT_ERR_RESOURCES
                     (w_registry w, MIstatus.success, EmptyString) in
    let '(reg2, bOk, errMsg) :=
      ModuleShutdown CMICmnLog IDS_MI_INIT_ERR_LOG
                     (reg1, bOk1, errMsg1) in
    let this3 :=
      if negb bOk then
        SetErrorDescriptionn (MIRSRC IDS_MI_SHTDWN_ERR_OS_STDIN_HANDLER)
                             errMsg this2
      else this2 in
    Ok (MIstatus.success,
        mkWorld this3 heap1 (w_stdin w) (w_errno w) reg2).

(** The new-line stripping loop of [ReadLine]: from the start of the
    array to its first NUL, the first LF or CR becomes NUL. [None]: the
    scan left the array. *)
Fixpoint strip_newline (buf : list MIchar) : option (list MIchar) :=
  match buf with
  | [] => None
  | b :: t =>
      if Byte.eqb b NUL then Some buf
      else if Byte.eqb b LF || Byte.eqb b CR then Some (NUL :: t)
      else option_map (cons b) (strip_newline t)
  end.

(** [CMICmnStreamStdinLinux::ReadLine]: from the caller's [vwErrMsg] and
    the world, the pointer returned, the text left in [vwErrMsg], and the
    world afterwards. *)
Definition ReadLine (vwErrMsg : string) (w : World)
  : outcome (option addr * string * World) :=
  let this := w_this w in
  let vwErrMsg := EmptyString in         (* vwErrMsg.clear() *)
  match m_pCmdBuffer this with
  | None => Undefined NullBufferAccess
  | Some a =>
      match w_heap w !! a with
      | None => Undefined UseAfterFree
      | Some buf =>
          r ← fgets buf (m_constBufferSize this) (w_stdin w) (w_errno w);
          let w1 := mkWorld this (<[a := fg_buf r]> (w_heap w))
                            (fg_file r) (fg_errno r) (w_registry w) in
          if negb (fg_ret r) then
            match m_pStdin this with
            | None => Undefined NullStreamAccess
            | Some stdin_ptr =>
                let vwErrMsg :=
                  if negb (ferror (w_stdin w1) =? 0)%Z
                  then strerror (w_errno w1) else vwErrMsg in
                Ok (None, vwErrMsg, w1)
            end
          else
            match strip_newline (fg_buf r) with
            | None => Undefined BufferOverrun
            | Some buf' =>
                Ok (Some a, vwErrMsg,
                    mkWorld this (<[a := buf']> (w_heap w))
                            (fg_file r) (fg_errno r) (w_registry w))
            end
      end
  end.

(** [CMICmnStreamStdinLinux::InterruptReadLine]. *)
Definition InterruptReadLine (w : World) : World :=
  with_this (set_waitForInput false (w_this w)) w.

(** The line a caller sees behind the pointer [ReadLine] returned. *)
Definition line_at (p : addr) (w : World) : option (list MIchar) :=
  cstr <$> (w_heap w !! p).

(** *** [InputAvailable] against an interrupting thread

    The body compiled when [_WIN32] is not defined. The loop is cut at
    the two points where the other thread can be observed to act: the
    test of [m_waitForInput] and the return of [::select]. A schedule
    says which thread moves next. *)

Inductive pc : Type :=
| AtLoopTest                    (* about to evaluate [while (m_waitForInput)] *)
| InSelect (tv_sec tv_usec : Z) (* blocked in [::select] with this timeout *)
| Returned (status : bool).     (* the call is over *)

Record call : Type := mkCall {
  c_pc : pc;
  vwbAvail : bool;              (* the caller's variable bound to [vwbAvail] *)
  c_polls : nat                 (* [::select] calls issued so far *)
}.

Inductive event : Type :=
| Interrupt                     (* the other thread runs [InterruptReadLine] *)
| Consumer (ret : Z).           (* the caller moves; [ret] is what [::select]
                                   gives back if it is blocked there *)

Definition enter (avail : bool) : call := mkCall AtLoopTest avail 0.

Definition consumer_step (ret : Z) (w : World) (c : call) : call :=
  match c_pc c with
  | AtLoopTest =>
      if m_waitForInput (w_this w)
      then mkCall (InSelect 1 0) (vwbAvail c) (S (c_polls c))
      else mkCall (Returned MIstatus.failure) (vwbAvail c) (c_polls c)
  | InSelect _ _ =>
      if (ret =? 0)%Z then mkCall AtLoopTest (vwbAvail c) (c_polls c)
      else if (ret =? -1)%Z
           then mkCall (Returned MIstatus.failure) false (c_polls c)
           else mkCall (Returned MIstatus.success) true (c_polls c)
  | Returned _ => c
  end.

Definition step (ev : event) (s : World * call) : World * call :=
  match ev with
  | Interrupt => (InterruptReadLine (fst s), snd s)
  | Consumer ret => (fst s, consumer_step ret (fst s) (snd s))
  end.

Definition run (sched : list event) (s : World * call) : World * call :=
  fold_left (fun s ev => step ev s) sched s.

(** [CMICmnStreamStdinLinux::InputAvailable] called with [vwbAvail] bound
    to a variable holding [avail], under the schedule [sched]. *)
Definition InputAvailable (avail : bool) (sched : list event) (w : World)
  : World * call :=
  run sched (w, enter avail).

(** How often the caller moves under [sched]. *)
Fixpoint consumer_steps (sched : list event) : nat :=
  match sched with
  | [] => 0
  | Interrupt :: sched' => consumer_steps sched'
  | Consumer _ :: sched' => S (consumer_steps sched')
  end.


Definition interrupt_free (sched : list event) : bool :=
  forallb (fun ev => match ev with Interrupt => false | _ => true end) sched.

(** *** Sequences of calls *)

Inductive op : Type :=
| OpInitialize
| OpShutdown
| OpInputAvailable (avail : bool) (sched : list event)
| OpReadLine (vwErrMsg : string)
| OpInterruptReadLine.

Definition exec (o : op) (w : World) : outcome World :=
  match o with
  | OpInitialize => Ok (snd (Initialize w))
  | OpShutdown => r ← Shutdown w; Ok (snd r)
  | OpInputAvailable avail sched => Ok (fst (InputAvailable avail sched w))
  | OpReadLine vwErrMsg => r ← ReadLine vwErrMsg w; Ok (snd r)
  | OpInterruptReadLine => Ok (InterruptReadLine w)
  end.

Fixpoint exec_all (os : list op) (w : World) : outcome World :=
  match os with
  | [] => Ok w
  | o :: os' => w' ← exec o w; exec_all os' w'
  end.

(** Does [o] contain a call of [InterruptReadLine], by either thread? *)
Definition interrupts (o : op) : bool :=
  match o with
  | OpInterruptReadLine => true
  | OpInputAvailable _ sched => negb (interrupt_free sched)
  | _ => false
  end.

(** The worlds an instance can be in: freshly constructed in any
    environment, then any calls that stay within defined behaviour. *)
Inductive reachable : World -> Prop :=
| reach_ctor h f e reg : reachable (mkWorld ctor h f e reg)
| reach_exec o w w' : reachable w -> exec o w = Ok w' -> reachable w'.

(** The buffer of an initialised reader: live and [m_constBufferSize] long. *)
Definition buffer_live (w : World) : Prop :=
  exists a buf,
    m_pCmdBuffer (w_this w) = Some a /\ w_heap w !! a = Some buf /\
    length buf = Z.to_nat (m_constBufferSize (w_this w)).

Definition usable (w : World) : Prop :=
  m_bInitialized (w_this w) = true /\
  m_pStdin (w_this w) = Some stdin_ptr /\
  buffer_live w.

Definition released (w : World) : Prop :=
  m_bInitialized (w_this w) = false /\
  m_pStdin (w_this w) = None /\
  m_pCmdBuffer (w_this w) = None.

(** The two bring-up calls of [Initialize] and the two tear-down calls of
    [Shutdown], on their own. *)
Definition bring_up (reg : Registry) : Registry * bool * string :=
  ModuleInit CMICmnResources IDS_MI_INIT_ERR_RESOURCES
    (ModuleInit CMICmnLog IDS_MI_INIT_ERR_LOG
       (reg, MIstatus.success, EmptyString)).

Definition tear_down (reg : Registry) : Registry * bool * string :=
  ModuleShutdown CMICmnLog IDS_MI_INIT_ERR_LOG
    (ModuleShutdown CMICmnResources IDS_MI_INIT_ERR_RESOURCES
       (reg, MIstatus.success, EmptyString)).

(** What every reachable world satisfies: the constructor's buffer size,
    and pointers that agree with [m_bInitialized]. *)
Definition invariant (w : World) : Prop :=
  m_constBufferSize (w_this w) = 1024%Z /\ (usable w \/ released w).


End Methods.

(** ** A scripted registry, for running the methods on concrete worlds *)

(** Each start or stop of a module consumes one entry of the script:
    [true] lets it succeed, [false] makes it fail. *)
Definition scripted_init (id : resource_id)
  (a : list bool * bool * string) : list bool * bool * string :=
  let '(script, bOk, errMsg) := a in
  if bOk then
    match script with
    | false :: script' => (script', MIstatus.failure, "module failed to start"%string)
    | _ :: script' => (script', bOk, errMsg)
    | [] => (script, bOk, errMsg)
    end
  else a.

Definition scripted_shutdown (id : resource_id)
  (a : list bool * bool * string) : list bool * bool * string :=
  let '(script, bOk, errMsg) := a in
  match script with
  | false :: script' => (script', MIstatus.failure, "module failed to stop"%string)
  | _ :: script' => (script', bOk, errMsg)
  | [] => (script, bOk, errMsg)
  end.

Definition scripted : Externals := {|
  Registry := list bool;
  ModuleInit := fun _ => scripted_init;
  ModuleShutdown := fun _ => scripted_shutdown;
  MIRSRC := fun id =>
    match id with
    | IDS_MI_INIT_ERR_LOG => "log: "%string
    | IDS_MI_INIT_ERR_RESOURCES => "resources: "%string
    | IDS_MI_INIT_ERR_OS_STDIN_HANDLER => "stdin handler: "%string
    | IDS_MI_SHTDWN_ERR_OS_STDIN_HANDLER => "stdin handler shutdown: "%string
    end;
  Format := String.append;
  strerror := fun e => if (e =? 5)%Z then "Input/output error"%string
                       else "Unknown error"%string
|}.

(** A stream holding [text], then end-of-file. *)
Definition stream_of (text : list MIchar) : FILE :=
  mkFILE text EndOfFile false false.

(** A freshly constructed reader with [text] waiting on [stdin]. *)
Definition fresh_world (script : list bool) (text : list MIchar)
  : @World scripted :=
  @mkWorld scripted ctor ∅ (stream_of text) 0%Z script.

Definition bytes_of (s : string) : list MIchar := list_byte_of_string s.

Definition step_line : list MIchar := bytes_of "step" ++ [LF].

(** A reader constructed and initialised with all modules starting, and
    [step] followed by a new-line waiting on [stdin]. *)
Definition ready_world : @World scripted :=
  snd (Initialize (fresh_world [] step_line)).

(** The same reader with nothing on [stdin] but end-of-file. *)
Definition drained_world : @World scripted :=
  snd (Initialize (fresh_world [] [])).

(** The same reader on a [stdin] whose first read fails with [EIO]. *)
Definition broken_world : @World scripted :=
  snd (Initialize
         (@mkWorld scripted ctor ∅ (mkFILE [] (ReadError 5) false false)
                   0%Z [])).

(** An initialised reader whose resources module will fail to stop. *)
Definition stubborn_world : @World scripted :=
  snd (Initialize (fresh_world [true; true; false] [])).

(** A constructed reader whose log module will fail to start once. *)
Definition unlucky_world : @World scripted := fresh_world [false] [].

(** The world a [Shutdown] leaves, or a world left as it was when the call
    is outside defined behaviour. *)
Definition after_Shutdown `{E : Externals} (w : World) : World :=
  match Shutdown w with
  | Ok (_, w') => w'
  | Undefined _ => w
  end.

(** A reader constructed and initialised with [text] waiting on [stdin],
    followed by end-of-file. *)
Definition initialised_on (text : list MIchar) : @World scripted :=
  snd (Initialize (fresh_world [] text)).

(** The same with a [stdin] that fails with [errno = e] behind [text]. *)
Definition failing_after (text : list MIchar) (e : Z) : @World scripted :=
  snd (Initialize
         (@mkWorld scripted ctor ∅ (mkFILE text (ReadError e) false false)
                   0%Z [])).

(** A constructed reader on a drained [stdin] whose error indicator was
    left set, with [errno = 5], and the same reader once initialised by
    hand, the indicator still set. *)
Definition stale_start : @World scripted :=
  @mkWorld scripted ctor ∅ (mkFILE [] EndOfFile true true) 5%Z [].

Definition stale_world : @World scripted :=
  @mkWorld scripted
    (mkReader true EmptyString 1024 (Some stdin_ptr) (Some 0%nat) true)
    {[ 0%nat := replicate 1024 NUL ]}
    (mkFILE [] EndOfFile true true) 5%Z [].

(** 1023 letters without a new-line. *)
Definition long_line : list MIchar := replicate 1023 "a"%byte.

(** A heap holding one block that is not the reader's. *)
Definition foreign_heap : gmap addr (list MIchar) := {[ 7%nat := [LF] ]}.

(** ** The destructor and a consumer's calls *)

Section Callers.
Context `{E : Externals}.

(** [CMICmnStreamStdinLinux::~CMICmnStreamStdinLinux]: it calls [Shutdown]
    and drops the status. *)
Definition dtor (w : World) : outcome World :=
  r ← Shutdown w; Ok (snd r).

(** [n] calls of [ReadLine] in a row; the line behind each returned
    pointer is copied out before the next call. *)
Fixpoint read_lines (n : nat) (w : World)
  : outcome (list (option (list MIchar)) * World) :=
  match n with
  | O => Ok ([], w)
  | S n' =>
      r ← ReadLine EmptyString w;
      let line := match fst (fst r) with
                  | Some a => line_at a (snd r)
                  | None => None
                  end in
      rest ← read_lines n' (snd r);
      Ok (line :: fst rest, snd rest)
  end.

(** [k] rounds of the polling loop in which [::select] times out, with no
    other thread moving. *)
Fixpoint timeouts (k : nat) : list event :=
  match k with
  | O => []
  | S k' => Consumer 0 :: Consumer 0 :: timeouts k'
  end.

(** The stream once [fgets] has taken what it takes under limit [m]:
    [rest] is left, and meeting the end sets the end-of-file indicator. *)
Definition after_read (f : FILE) (rest : list MIchar) (k : stop) : FILE :=
  mkFILE rest (f_end f)
         (match k with AtEnd => true | _ => f_eof f end) (f_err f).

(** The reader owns nothing of the heap [h0] it found, and beyond [h0] at
    most the one block behind [m_pCmdBuffer]. *)
Definition owns_one_block (h0 : gmap addr (list MIchar)) (w : World) : Prop :=
  (m_bInitialized (w_this w) = false /\
   m_pCmdBuffer (w_this w) = None /\ w_heap w = h0) \/
  (m_bInitialized (w_this w) = true /\
   exists a buf,
     m_pCmdBuffer (w_this w) = Some a /\ h0 !! a = None /\
     w_heap w = <[a := buf]> h0).

(** What a finished or unfinished call of [InputAvailable] shows its
    caller, given that [vwbAvail] held [avail] on entry. *)
Definition call_outcome (avail : bool) (w : World) (c : call) : Prop :=
  match c_pc c with
  | AtLoopTest => vwbAvail c = avail
  | InSelect _ _ => vwbAvail c = avail /\ (1 <= c_polls c)%nat
  | Returned true => vwbAvail c = true /\ (1 <= c_polls c)%nat
  | Returned false =>
      (vwbAvail c = false /\ (1 <= c_polls c)%nat) \/
      (vwbAvail c = avail /\ m_waitForInput (w_this w) = false)
  end.

End Callers.

(** The line of the spec: [l] with its first LF or CR overwritten by the
    terminator. *)
Fixpoint terminate_at_newline (l : list MIchar) : list MIchar :=
  match l with
  | [] => []
  | b :: t =>
      if Byte.eqb b LF || Byte.eqb b CR then NUL :: t
      else b :: terminate_at_newline t
  end.

(** The bytes of [l] in front of its first NUL, LF or CR. *)
Fixpoint before_terminator (l : list MIchar) : list MIchar :=
  match l with
  | [] => []
  | b :: t =>
      if Byte.eqb b NUL || (Byte.eqb b LF || Byte.eqb b CR) then []
      else b :: before_terminator t
  end.

(** * Properties *)

(** ** Bytes, [fgets] and the stripping loop *)

Lemma eqb_byte_true (a b : MIchar) : Byte.eqb a b = true <-> a = b.
Proof.
  split; [apply Byte.byte_dec_bl | apply Byte.byte_dec_lb].
Qed.

Lemma eqb_byte_false (a b : MIchar) : Byte.eqb a b = false <-> a <> b.
Proof.
  split; [apply Byte.eqb_false |].
  intros Hne. destruct (Byte.eqb a b) eqn:Heq; [|reflexivity].
  apply eqb_byte_true in Heq. contradiction.
Qed.

Ltac byte_cases :=
  repeat match goal with
  | H : Byte.eqb _ _ = true |- _ => apply eqb_byte_true in H
  | H : Byte.eqb _ _ = false |- _ => apply eqb_byte_false in H
  | H : _ || _ = true |- _ => apply orb_true_iff in H
  | H : _ || _ = false |- _ => apply orb_false_iff in H; destruct H
  end.

Lemma getline_split (count : nat) (s : list MIchar) :
  forall chunk rest k,
    getline count s = (chunk, rest, k) ->
    s = chunk ++ rest /\ (length chunk <= count)%nat.
Proof.
  revert s. induction count as [|c IH]; intros s chunk rest k; simpl.
  - intros [= <- <- <-]. split; [reflexivity | simpl; lia].
  - destruct s as [|b s'].
    + intros [= <- <- <-]. split; [reflexivity | simpl; lia].
    + destruct (Byte.eqb b LF).
      * intros [= <- <- <-]. split; [reflexivity | simpl; lia].
      * destruct (getline c s') as [[l r] k'] eqn:Hg.
        intros [= <- <- <-]. destruct (IH _ _ _ _ Hg) as [-> Hlen].
        split; [reflexivity | simpl; lia].
Qed.

Lemma getline_line (l rest : list MIchar) :
  LF ∉ l ->
  forall count, (length l < count)%nat ->
    getline count (l ++ LF :: rest) = (l ++ [LF], rest, AtNewline).
Proof.
  induction l as [|b l IH]; intros Hnot count Hlen.
  - destruct count; [simpl in Hlen; lia | reflexivity].
  - destruct count as [|c]; [simpl in Hlen; lia |].
    simpl. apply not_elem_of_cons in Hnot as [Hb Hl].
    assert (Byte.eqb b LF = false) as -> by (apply eqb_byte_false; congruence).
    rewrite (IH Hl c) by (simpl in Hlen; lia). reflexivity.
Qed.

Lemma store_fits (bs buf : list MIchar) :
  (length bs <= length buf)%nat ->
  store bs buf = Ok (bs ++ drop (length bs) buf).
Proof.
  intros Hle. unfold store.
  destruct (Nat.leb_spec (length bs) (length buf)); [reflexivity | lia].
Qed.

Lemma store_length (bs buf buf' : list MIchar) :
  store bs buf = Ok buf' -> length buf' = length buf.
Proof.
  unfold store. destruct (Nat.leb_spec (length bs) (length buf)); [|discriminate].
  intros [= <-]. rewrite length_app, length_drop. lia.
Qed.

Lemma strip_newline_length (buf buf' : list MIchar) :
  strip_newline buf = Some buf' -> length buf' = length buf.
Proof.
  revert buf'. induction buf as [|b t IH]; intros buf'; simpl; [discriminate|].
  destruct (Byte.eqb b NUL); [intros [= <-]; reflexivity|].
  destruct (Byte.eqb b LF || Byte.eqb b CR); [intros [= <-]; reflexivity|].
  destruct (strip_newline t) as [t'|]; [|discriminate].
  intros [= <-]. simpl. f_equal. apply IH. reflexivity.
Qed.

(** The loop stops inside any array that holds a terminated string. *)
Lemma strip_newline_terminated (chunk tail : list MIchar) :
  exists buf', strip_newline (chunk ++ NUL :: tail) = Some buf' /\
               cstr buf' = before_terminator chunk.
Proof.
  induction chunk as [|b t IH]; simpl.
  - eexists. split; reflexivity.
  - destruct (Byte.eqb b NUL) eqn:Hnul; simpl.
    + eexists. split; [reflexivity|]. simpl. rewrite Hnul. reflexivity.
    + destruct (Byte.eqb b LF || Byte.eqb b CR); simpl.
      * eexists. split; reflexivity.
      * destruct IH as (buf' & -> & Hc). simpl.
        eexists. split; [reflexivity|]. simpl. rewrite Hnul, Hc. reflexivity.
Qed.

Lemma strip_newline_no_NUL (chunk tail : list MIchar) :
  NUL ∉ chunk ->
  strip_newline (chunk ++ NUL :: tail)
  = Some (terminate_at_newline chunk ++ NUL :: tail).
Proof.
  induction chunk as [|b t IH]; intros Hnot; simpl; [reflexivity|].
  apply not_elem_of_cons in Hnot as [Hb Ht].
  assert (Byte.eqb b NUL = false) as -> by (apply eqb_byte_false; congruence).
  destruct (Byte.eqb b LF || Byte.eqb b CR); [reflexivity|].
  rewrite (IH Ht). reflexivity.
Qed.

Lemma cstr_terminate_at_newline (l : list MIchar) :
  cstr (terminate_at_newline l) = before_terminator l.
Proof.
  induction l as [|b t IH]; simpl; [reflexivity|].
  destruct (Byte.eqb b NUL) eqn:Hnul; simpl.
  - destruct (Byte.eqb b LF || Byte.eqb b CR); simpl; [reflexivity|].
    rewrite Hnul. reflexivity.
  - destruct (Byte.eqb b LF || Byte.eqb b CR); simpl; [reflexivity|].
    rewrite Hnul, IH. reflexivity.
Qed.

Lemma before_terminator_clean (l : list MIchar) :
  forall b, b ∈ before_terminator l -> b <> NUL /\ b <> LF /\ b <> CR.
Proof.
  induction l as [|c t IH]; simpl; intros b Hin.
  - inversion Hin.
  - destruct (Byte.eqb c NUL) eqn:H0; simpl in Hin; [inversion Hin|].
    destruct (Byte.eqb c LF) eqn:H1; simpl in Hin; [inversion Hin|].
    destruct (Byte.eqb c CR) eqn:H2; simpl in Hin; [inversion Hin|].
    byte_cases. apply elem_of_cons in Hin as [-> | Hin]; [tauto | auto].
Qed.

Lemma before_terminator_prefix (l : list MIchar) :
  exists tl, l = before_terminator l ++ tl.
Proof.
  induction l as [|c t [tl IH]]; simpl.
  - exists []. reflexivity.
  - destruct (Byte.eqb c NUL || (Byte.eqb c LF || Byte.eqb c CR)).
    + eexists. reflexivity.
    + exists tl. simpl. f_equal. exact IH.
Qed.

Lemma before_terminator_app_LF (l : list MIchar) :
  before_terminator (l ++ [LF]) = before_terminator l.
Proof.
  induction l as [|c t IH]; simpl; [reflexivity|].
  destruct (Byte.eqb c NUL || (Byte.eqb c LF || Byte.eqb c CR));
    [reflexivity | f_equal; exact IH].
Qed.

Lemma before_terminator_id (l : list MIchar) :
  NUL ∉ l -> LF ∉ l -> CR ∉ l -> before_terminator l = l.
Proof.
  induction l as [|c t IH]; intros H0 H1 H2; simpl; [reflexivity|].
  apply not_elem_of_cons in H0 as [? ?].
  apply not_elem_of_cons in H1 as [? ?].
  apply not_elem_of_cons in H2 as [? ?].
  assert (Byte.eqb c NUL = false) as -> by (apply eqb_byte_false; congruence).
  assert (Byte.eqb c LF = false) as -> by (apply eqb_byte_false; congruence).
  assert (Byte.eqb c CR = false) as -> by (apply eqb_byte_false; congruence).
  simpl. f_equal. auto.
Qed.

Section Properties.
Context `{E : Externals}.

Lemma fgets_line (buf l rest : list MIchar) (n : Z) (f : FILE) (errno : Z) :
  f_eof f = false ->
  f_pending f = l ++ LF :: rest ->
  LF ∉ l ->
  (Z.of_nat (length l) < n - 1)%Z ->
  (Z.to_nat n <= length buf)%nat ->
  fgets buf n f errno
  = Ok (mk_fgets true
          ((l ++ [LF]) ++ NUL :: drop (length l + 2) buf)
          (mkFILE rest (f_end f) (f_eof f) (f_err f)) errno).
Proof.
  intros Heof Hpend Hnot Hlen Hbuf. unfold fgets.
  destruct (Z.leb_spec n 0) as [Hn|Hn]; [lia|]. rewrite Heof. simpl.
  rewrite Hpend, (getline_line l rest Hnot) by lia.
  rewrite store_fits by (rewrite !length_app; simpl; lia).
  simpl. rewrite <- app_assoc. simpl.
  replace (length ((l ++ [LF]) ++ [NUL])) with (length l + 2)%nat
    by (rewrite !length_app; simpl; lia).
  rewrite <- app_assoc. reflexivity.
Qed.

(** C2. Whenever the stream, its end-of-file indicator clear, holds a
    line [l] of fewer than
    [m_constBufferSize - 1] bytes followed by its new-line, [ReadLine]
    on an initialised reader returns the buffer, having taken from the
    stream exactly the line and its new-line (at most
    [m_constBufferSize - 1] bytes). The string behind the returned
    pointer is the input with its first LF or CR overwritten by the
    terminator: it is the part of [l] in front of the first terminator
    byte, holds no LF and no CR, and is [l] itself when [l] has no CR
    and no NUL. *)
Theorem ReadLine_returns_line (w : World) (a : addr) (buf : list MIchar)
    (vwErrMsg : string) (l rest : list MIchar) :
  m_pCmdBuffer (w_this w) = Some a ->
  w_heap w !! a = Some buf ->
  length buf = Z.to_nat (m_constBufferSize (w_this w)) ->
  f_eof (w_stdin w) = false ->
  f_pending (w_stdin w) = l ++ LF :: rest ->
  LF ∉ l ->
  (Z.of_nat (length l) < m_constBufferSize (w_this w) - 1)%Z ->
  exists w' line,
    ReadLine vwErrMsg w = Ok (Some a, EmptyString, w') /\
    f_pending (w_stdin w) = (l ++ [LF]) ++ f_pending (w_stdin w') /\
    (Z.of_nat (length (l ++ [LF])) <= m_constBufferSize (w_this w) - 1)%Z /\
    line_at a w' = Some line /\
    line = cstr (terminate_at_newline (l ++ [LF])) /\
    line = before_terminator l /\
    (exists tl, l = line ++ tl) /\
    (forall b, b ∈ line -> b <> LF /\ b <> CR) /\
    (NUL ∉ l -> CR ∉ l -> line = l) /\
    (NUL ∉ l ->
     w_heap w' !! a
     = Some (terminate_at_newline (l ++ [LF])
             ++ NUL :: drop (length l + 2) buf)).
Proof.
  intros Hp Hh Hlen Heof Hpend Hnot Hshort.
  destruct (strip_newline_terminated (l ++ [LF]) (drop (length l + 2) buf))
    as (buf' & Hstrip & Hc).
  unfold ReadLine. rewrite Hp, Hh.
  rewrite (fgets_line buf l rest _ _ _ Heof Hpend Hnot Hshort) by lia.
  simpl. rewrite Hstrip.
  eexists. exists (before_terminator l).
  split; [reflexivity|]. simpl.
  split; [rewrite Hpend, <- app_assoc; reflexivity|].
  split; [rewrite length_app; simpl; lia|].
  unfold line_at. simpl. rewrite lookup_insert_eq. simpl.
  rewrite Hc, cstr_terminate_at_newline, before_terminator_app_LF.
  split; [reflexivity|]. split; [reflexivity|]. split; [reflexivity|].
  split; [apply before_terminator_prefix|].
  split; [intros b Hb; apply before_terminator_clean in Hb; tauto|].
  split; [intros; apply before_terminator_id; assumption|].
  intros Hnul.
  rewrite strip_newline_no_NUL in Hstrip.
  - congruence.
  - intros Hin. apply elem_of_app in Hin as [Hin | Hin]; [tauto|].
    apply list_elem_of_singleton in Hin. discriminate.
Qed.

(** ** [Initialize] and [Shutdown] in terms of the registry calls *)

Lemma Initialize_eq (w : World) :
  Initialize w =
  if m_bInitialized (w_this w) then (MIstatus.success, w)
  else
    match bring_up (w_registry w) with
    | (reg, true, _) =>
        let a := fresh (dom (w_heap w)) in
        (MIstatus.success,
         mkWorld (set_bInitialized true
                    (set_pStdin (Some stdin_ptr)
                       (set_pCmdBuffer (Some a) (w_this w))))
                 (<[a := replicate (Z.to_nat (m_constBufferSize (w_this w)))
                                   NUL]> (w_heap w))
                 (clearerr (w_stdin w)) (w_errno w) reg)
    | (reg, false, errMsg) =>
        (MIstatus.failure,
         mkWorld (SetErrorDescription
                    (Format (MIRSRC IDS_MI_INIT_ERR_OS_STDIN_HANDLER) errMsg)
                    (set_bInitialized false (w_this w)))
                 (w_heap w) (clearerr (w_stdin w)) (w_errno w) reg)
    end.
Proof.
  unfold Initialize, bring_up.
  destruct (m_bInitialized (w_this w)); [reflexivity|].
  destruct (ModuleInit CMICmnLog _ _) as [[reg1 bOk1] errMsg1].
  destruct (ModuleInit CMICmnResources _ _) as [[reg2 bOk] errMsg].
  destruct bOk; reflexivity.
Qed.

Lemma Shutdown_eq (w : World) :
  Shutdown w =
  if m_bInitialized (w_this w) then
    heap1 ← match m_pCmdBuffer (w_this w) with
             | Some a =>
                 match w_heap w !! a with
                 | Some _ => Ok (delete a (w_heap w))
                 | None => Undefined UseAfterFree
                 end
             | None => Ok (w_heap w)
             end;
    let this2 :=
      set_pStdin None
        (set_pCmdBuffer None
           (ClrErrorDescription (set_bInitialized false (w_this w)))) in
    match tear_down (w_registry w) with
    | (reg, true, _) =>
        Ok (MIstatus.success,
            mkWorld this2 heap1 (w_stdin w) (w_errno w) reg)
    | (reg, false, errMsg) =>
        Ok (MIstatus.success,
            mkWorld (SetErrorDescription
                       (Format (MIRSRC IDS_MI_SHTDWN_ERR_OS_STDIN_HANDLER)
                               errMsg) this2)
                    heap1 (w_stdin w) (w_errno w) reg)
    end
  else Ok (MIstatus.success, w).
Proof.
  unfold Shutdown, tear_down, delete_array.
  destruct (m_bInitialized (w_this w)); [|reflexivity]. simpl.
  destruct (m_pCmdBuffer (w_this w)) as [a|]; simpl.
  - destruct (w_heap w !! a); simpl; [|reflexivity].
    destruct (ModuleShutdown CMICmnResources _ _) as [[reg1 bOk1] errMsg1].
    destruct (ModuleShutdown CMICmnLog _ _) as [[reg2 bOk] errMsg].
    destruct bOk; reflexivity.
  - destruct (ModuleShutdown CMICmnResources _ _) as [[reg1 bOk1] errMsg1].
    destruct (ModuleShutdown CMICmnLog _ _) as [[reg2 bOk] errMsg].
    destruct bOk; reflexivity.
Qed.

(** ** What every reachable world satisfies *)

Lemma invariant_ctor h f e reg : invariant (mkWorld ctor h f e reg).
Proof. split; [reflexivity|]. right. repeat split. Qed.

Lemma invariant_Initialize (w : World) :
  invariant w -> invariant (snd (Initialize w)).
Proof.
  intros [Hcap Hst]. rewrite Initialize_eq.
  destruct (m_bInitialized (w_this w)) eqn:Hinit; [split; assumption|].
  destruct (bring_up (w_registry w)) as [[reg bOk] errMsg].
  destruct bOk; simpl; (split; [exact Hcap|]).
  - left. repeat split. eexists _, _. simpl.
    split; [reflexivity|]. split; [apply lookup_insert_eq|].
    apply length_replicate.
  - right. destruct Hst as [(Hi & _) | (_ & Hs & Hb)]; [congruence|].
    repeat split; assumption.
Qed.

Lemma invariant_Shutdown (w : World) :
  invariant w ->
  exists w', Shutdown w = Ok (MIstatus.success, w') /\
             invariant w' /\ released w' /\
             m_waitForInput (w_this w') = m_waitForInput (w_this w).
Proof.
  intros [Hcap Hst]. rewrite Shutdown_eq.
  destruct (m_bInitialized (w_this w)) eqn:Hinit.
  - destruct Hst as [(_ & _ & a & buf & Ha & Hb & _) | (Hi & _)];
      [|congruence].
    rewrite Ha, Hb. simpl.
    destruct (tear_down (w_registry w)) as [[reg bOk] errMsg].
    destruct bOk; eexists; (split; [reflexivity|]);
      repeat split; simpl; auto; right; repeat split.
  - exists w. split; [reflexivity|].
    destruct Hst as [(Hi & _) | Hrel]; [congruence|].
    repeat split; auto; try apply Hrel.
Qed.

Lemma fgets_length (buf : list MIchar) n f errno r :
  fgets buf n f errno = Ok r -> length (fg_buf r) = length buf.
Proof.
  unfold fgets. destruct (n <=? 0)%Z; [intros [= <-]; reflexivity|].
  destruct (f_eof f && (1 <? n)%Z); [intros [= <-]; reflexivity|].
  destruct (getline _ _) as [[chunk rest] k].
  destruct (store (chunk ++ [NUL]) buf) as [buf1|] eqn:Hs1;
    destruct (store chunk buf) as [buf2|] eqn:Hs2;
    destruct k, (f_end f); try destruct chunk; try destruct (_ =? EAGAIN)%Z;
    simpl; try discriminate; intros [= <-]; simpl;
    try reflexivity;
    try exact (store_length _ _ _ Hs1); exact (store_length _ _ _ Hs2).
Qed.

(** [fgets] takes a prefix of the pending bytes, never more than [n - 1]. *)
Lemma fgets_consumes (buf : list MIchar) n f errno r :
  fgets buf n f errno = Ok r ->
  exists chunk,
    f_pending f = chunk ++ f_pending (fg_file r) /\
    (Z.of_nat (length chunk) <= Z.max 0 (n - 1))%Z.
Proof.
  unfold fgets. destruct (n <=? 0)%Z.
  { intros [= <-]. exists []. split; [reflexivity | simpl; lia]. }
  destruct (f_eof f && (1 <? n)%Z).
  { intros [= <-]. exists []. split; [reflexivity | simpl; lia]. }
  destruct (getline _ _) as [[chunk rest] k] eqn:Hg.
  destruct (getline_split _ _ _ _ _ Hg) as [Hsplit Hlen].
  intros Hr. exists chunk.
  assert (f_pending (fg_file r) = rest) as ->.
  { destruct (store (chunk ++ [NUL]) buf) as [buf1|];
      destruct (store chunk buf) as [buf2|];
      destruct k, (f_end f); try destruct chunk;
      try destruct (_ =? EAGAIN)%Z;
      simpl in Hr; try discriminate; injection Hr as <-; reflexivity. }
  split; [exact Hsplit | lia].
Qed.

Lemma ReadLine_this (vwErrMsg : string) (w : World) p msg w' :
  ReadLine vwErrMsg w = Ok (p, msg, w') ->
  w_this w' = w_this w /\
  exists a buf buf',
    m_pCmdBuffer (w_this w) = Some a /\ w_heap w !! a = Some buf /\
    w_heap w' = <[a := buf']> (w_heap w) /\ length buf' = length buf.
Proof.
  unfold ReadLine.
  destruct (m_pCmdBuffer (w_this w)) as [a|]; [|discriminate].
  destruct (w_heap w !! a) as [buf|] eqn:Hh; [|discriminate].
  destruct (fgets buf _ _ _) as [r|] eqn:Hf; [|discriminate]. simpl.
  pose proof (fgets_length _ _ _ _ _ Hf) as Hlen.
  destruct (fg_ret r); simpl.
  - destruct (strip_newline (fg_buf r)) as [buf'|] eqn:Hs; [|discriminate].
    intros [= <- <- <-]. split; [reflexivity|].
    exists a, buf, buf'.
    split; [reflexivity|]. split; [exact Hh|]. split; [reflexivity|].
    rewrite (strip_newline_length _ _ Hs). exact Hlen.
  - destruct (m_pStdin (w_this w)) as [[]|]; [|discriminate].
    intros [= <- <- <-]. split; [reflexivity|].
    exists a, buf, (fg_buf r).
    split; [reflexivity|]. split; [exact Hh|]. split; [reflexivity|].
    exact Hlen.
Qed.

Lemma invariant_ReadLine (vwErrMsg : string) (w : World) p msg w' :
  invariant w -> ReadLine vwErrMsg w = Ok (p, msg, w') -> invariant w'.
Proof.
  intros [Hcap Hst] Hr.
  destruct (ReadLine_this _ _ _ _ _ Hr)
    as (Hthis & a & buf & buf' & Ha & Hb & Hheap & Hlen).
  split; [rewrite Hthis; exact Hcap|].
  destruct Hst as [(Hi & Hs & a0 & buf0 & Ha0 & Hb0 & Hl0) | (_ & _ & Hn)];
    [|congruence].
  left. unfold usable, buffer_live. rewrite Hthis, Hheap.
  repeat split; auto. exists a, buf'.
  split; [exact Ha|]. split; [apply lookup_insert_eq|].
  assert (a0 = a) as -> by congruence. congruence.
Qed.

(** The polling loop touches nothing but [m_waitForInput], and that only
    through the other thread's [InterruptReadLine]. *)
Lemma run_world (sched : list event) (s : World * call) :
  fst (run sched s)
  = (if interrupt_free sched then fst s else InterruptReadLine (fst s)).
Proof.
  revert s. induction sched as [|ev sched IH]; intros s; [reflexivity|].
  change (run (ev :: sched) s) with (run sched (step ev s)).
  rewrite IH. destruct ev; simpl.
  - destruct (interrupt_free sched); reflexivity.
  - reflexivity.
Qed.

Lemma invariant_InterruptReadLine (w : World) :
  invariant w -> invariant (InterruptReadLine w).
Proof.
  intros [Hcap [(Hi & Hs & a & buf & Ha & Hb & Hl) | (Hi & Hs & Hb)]];
    (split; [exact Hcap|]).
  - left. repeat split; auto. exists a, buf. auto.
  - right. repeat split; auto.
Qed.

Lemma invariant_exec (o : op) (w w' : World) :
  invariant w -> exec o w = Ok w' -> invariant w'.
Proof.
  intros Hinv. destruct o; simpl.
  - intros [= <-]. apply invariant_Initialize, Hinv.
  - destruct (invariant_Shutdown w Hinv) as (w1 & -> & Hinv1 & _).
    simpl. intros [= <-]. exact Hinv1.
  - intros [= <-]. unfold InputAvailable. rewrite run_world. simpl.
    destruct (interrupt_free sched);
      [exact Hinv | apply invariant_InterruptReadLine, Hinv].
  - destruct (ReadLine vwErrMsg w) as [[[p msg] w1]|] eqn:Hr; [|discriminate].
    simpl. intros [= <-]. eapply invariant_ReadLine; eauto.
  - intros [= <-]. apply invariant_InterruptReadLine, Hinv.
Qed.

Lemma reachable_invariant (w : World) : reachable w -> invariant w.
Proof.
  induction 1 as [h f e reg | o w w' _ IH Hex].
  - apply invariant_ctor.
  - eapply invariant_exec; eauto.
Qed.

Lemma reachable_exec_all (os : list op) :
  forall w w', reachable w -> exec_all os w = Ok w' -> reachable w'.
Proof.
  induction os as [|o os IH]; intros w w' Hw; simpl.
  - intros [= <-]. exact Hw.
  - destruct (exec o w) as [w1|] eqn:Hex; [|discriminate]. simpl.
    apply IH. eapply reach_exec; eauto.
Qed.

Lemma released_of_uninitialized (w : World) :
  reachable w -> m_bInitialized (w_this w) = false -> released w.
Proof.
  intros Hw Hi. destruct (reachable_invariant w Hw) as [_ [(Hu & _) | Hr]];
    [congruence | exact Hr].
Qed.

Lemma set_bInitialized_same (r : CMICmnStreamStdinLinux) :
  set_bInitialized (m_bInitialized r) r = r.
Proof. destruct r; reflexivity. Qed.

(** ** Lifecycle *)

(** C4. In every world an instance can be in, and whatever the two
    module tear-downs do, [Shutdown] returns [MIstatus::success] and
    leaves [m_bInitialized] false; when it ran on an initialised
    instance, the error description afterwards is empty if tear-down
    reported no error and is the formatted tear-down message if it did. *)
Theorem Shutdown_always_succeeds (w : World) :
  reachable w ->
  exists w',
    Shutdown w = Ok (MIstatus.success, w') /\
    m_bInitialized (w_this w') = false /\
    (m_bInitialized (w_this w) = true ->
     m_strErrorDescription (w_this w')
     = match tear_down (w_registry w) with
       | (_, true, _) => EmptyString
       | (_, false, errMsg) =>
           Format (MIRSRC IDS_MI_SHTDWN_ERR_OS_STDIN_HANDLER) errMsg
       end).
Proof.
  intros Hw. pose proof (reachable_invariant w Hw) as Hinv.
  destruct (invariant_Shutdown w Hinv) as (w' & Hs & _ & (Hi & _) & _).
  exists w'. split; [exact Hs|]. split; [exact Hi|].
  intros Hinit. rewrite Shutdown_eq, Hinit in Hs.
  destruct Hinv as [_ [(_ & _ & a & buf & Ha & Hb & _) | (Hn & _)]];
    [|congruence].
  rewrite Ha, Hb in Hs. simpl in Hs.
  destruct (tear_down (w_registry w)) as [[reg bOk] errMsg].
  destruct bOk; injection Hs as <-; reflexivity.
Qed.

(** C10. When [Initialize] returns failure (a module did not start), the
    object is what it was except for its error description: the heap is
    untouched, [m_pCmdBuffer] and [m_pStdin] are still null,
    [m_bInitialized] is still false, and a [Shutdown] that follows
    returns success without changing anything. *)
Theorem Initialize_failure_leaves_state (w : World) :
  reachable w ->
  fst (Initialize w) = MIstatus.failure ->
  let w' := snd (Initialize w) in
  (exists errMsg,
     w_this w'
     = SetErrorDescription
         (Format (MIRSRC IDS_MI_INIT_ERR_OS_STDIN_HANDLER) errMsg)
         (w_this w)) /\
  w_heap w' = w_heap w /\
  m_pCmdBuffer (w_this w') = None /\
  m_pStdin (w_this w') = None /\
  m_bInitialized (w_this w') = false /\
  Shutdown w' = Ok (MIstatus.success, w').
Proof.
  intros Hw. rewrite Initialize_eq.
  destruct (m_bInitialized (w_this w)) eqn:Hinit; [discriminate|].
  destruct (released_of_uninitialized w Hw Hinit) as (_ & Hs & Hb).
  destruct (bring_up (w_registry w)) as [[reg bOk] errMsg].
  destruct bOk; [discriminate|]. intros _. simpl.
  split.
  { exists errMsg. rewrite <- Hinit, set_bInitialized_same. reflexivity. }
  repeat split; auto.
Qed.

(** C8. [Initialize] on an initialised instance returns success and
    changes nothing. [Shutdown] on an instance that is not initialised,
    a freshly constructed one included, returns success and changes
    nothing, and two [Shutdown]s in a row both return success. After
    [Initialize], [Shutdown], and an [Initialize] whose modules start
    again, the call succeeds and the reader is usable as after the
    first: initialised, [m_pStdin] set, a live buffer of
    [m_constBufferSize] bytes, and the same [m_waitForInput]. *)
Theorem Initialize_Shutdown_idempotent :
  (forall w : World,
     m_bInitialized (w_this w) = true ->
     Initialize w = (MIstatus.success, w)) /\
  (forall w : World,
     m_bInitialized (w_this w) = false ->
     Shutdown w = Ok (MIstatus.success, w)) /\
  (forall h f e reg,
     Shutdown (mkWorld ctor h f e reg)
     = Ok (MIstatus.success, mkWorld ctor h f e reg)) /\
  (forall w : World,
     reachable w ->
     exists w1, Shutdown w = Ok (MIstatus.success, w1) /\
                Shutdown w1 = Ok (MIstatus.success, w1)) /\
  (forall (w w1 w2 : World) s2,
     reachable w ->
     Initialize w = (MIstatus.success, w1) ->
     Shutdown w1 = Ok (s2, w2) ->
     snd (fst (bring_up (w_registry w2))) = true ->
     fst (Initialize w2) = MIstatus.success /\
     usable w1 /\ usable (snd (Initialize w2)) /\
     m_waitForInput (w_this (snd (Initialize w2)))
     = m_waitForInput (w_this w1) /\
     m_constBufferSize (w_this (snd (Initialize w2)))
     = m_constBufferSize (w_this w1) /\
     m_pStdin (w_this (snd (Initialize w2))) = m_pStdin (w_this w1)).
Proof.
  split; [|split; [|split; [|split]]].
  - intros w Hi. rewrite Initialize_eq, Hi. reflexivity.
  - intros w Hi. rewrite Shutdown_eq, Hi. reflexivity.
  - reflexivity.
  - intros w Hw.
    destruct (invariant_Shutdown w (reachable_invariant w Hw))
      as (w1 & Hs & _ & (Hi & _) & _).
    exists w1. split; [exact Hs|]. rewrite Shutdown_eq, Hi. reflexivity.
  - intros w w1 w2 s2 Hw Hi1 Hs Hup.
    assert (reachable w1) as Hw1.
    { apply (reach_exec OpInitialize w); [exact Hw|]. simpl.
      rewrite Hi1. reflexivity. }
    pose proof (reachable_invariant w1 Hw1) as Hinv1.
    assert (usable w1) as Hu1.
    { pose proof (invariant_Initialize w (reachable_invariant w Hw)) as Hinv.
      rewrite Initialize_eq in Hi1.
      destruct (m_bInitialized (w_this w)) eqn:Hb.
      - injection Hi1 as <-.
        destruct Hinv1 as [_ [Hu | (Hn & _)]]; [exact Hu | congruence].
      - destruct (bring_up (w_registry w)) as [[reg bOk] errMsg].
        destruct bOk; [|discriminate]. injection Hi1 as <-.
        destruct Hinv1 as [_ [Hu | (Hn & _)]]; [exact Hu | discriminate]. }
    destruct (invariant_Shutdown w1 Hinv1)
      as (w2' & Hs' & Hinv2 & (Hi2 & _) & Hwait).
    rewrite Hs' in Hs. injection Hs as <- <-.
    pose proof (invariant_Initialize w2' Hinv2) as Hinv3.
    destruct Hinv1 as [Hcap1 _]. destruct Hinv2 as [Hcap2 _].
    destruct Hu1 as (Hb1 & Hp1 & Hl1).
    revert Hinv3. rewrite Initialize_eq, Hi2.
    destruct (bring_up (w_registry w2')) as [[reg bOk] errMsg].
    simpl in Hup. subst bOk. simpl. intros [_ [Hu | (Hn & _)]];
      [|discriminate].
    split; [reflexivity|]. split; [repeat split; assumption|].
    split; [exact Hu|]. split; [exact Hwait|].
    split; [congruence|]. symmetry. exact Hp1.
Qed.

(** ** [ReadLine] *)

(** C3, as the code has it. After [Shutdown] the buffer is released and
    both pointers are null; whatever calls follow, as long as the
    instance is not initialised again, [ReadLine] makes no check: it
    hands the null buffer pointer to [fgets], which is outside defined
    behaviour (a null access, never an access to the released block). *)
Theorem ReadLine_after_Shutdown (w : World) (vwErrMsg : string) :
  reachable w ->
  exists w1,
    Shutdown w = Ok (MIstatus.success, w1) /\
    (forall a, m_pCmdBuffer (w_this w) = Some a -> w_heap w1 !! a = None) /\
    m_pCmdBuffer (w_this w1) = None /\
    ReadLine vwErrMsg w1 = Undefined NullBufferAccess /\
    forall os w2,
      exec_all os w1 = Ok w2 ->
      m_bInitialized (w_this w2) = false ->
      ReadLine vwErrMsg w2 = Undefined NullBufferAccess.
Proof.
  intros Hw. pose proof (reachable_invariant w Hw) as Hinv.
  destruct (invariant_Shutdown w Hinv) as (w1 & Hs & _ & (_ & _ & Hb1) & _).
  exists w1. split; [exact Hs|].
  split; [|split; [exact Hb1|split; [unfold ReadLine; rewrite Hb1;
                                     reflexivity|]]].
  - intros a Ha. rewrite Shutdown_eq in Hs.
    destruct Hinv as [_ [(Hi & _ & a' & buf & Ha' & Hb & _) | (_ & _ & Hn)]];
      [|congruence].
    rewrite Hi, Ha', Hb in Hs. simpl in Hs.
    assert (a' = a) as -> by congruence.
    destruct (tear_down (w_registry w)) as [[reg bOk] errMsg].
    destruct bOk; injection Hs as <-; apply lookup_delete_eq.
  - intros os w2 Hex Hi2.
    assert (reachable w1) as Hw1.
    { apply (reach_exec OpShutdown w); [exact Hw|]. simpl.
      rewrite Hs. reflexivity. }
    pose proof (reachable_exec_all os w1 w2 Hw1 Hex) as Hw2.
    destruct (released_of_uninitialized w2 Hw2 Hi2) as (_ & _ & Hb2).
    unfold ReadLine. rewrite Hb2. reflexivity.
Qed.

(** C7. When [fgets] gives [ReadLine] nothing (it returns NULL),
    [ReadLine] returns the null pointer. The message left in
    [vwErrMsg] is [strerror(errno)] when the error indicator of
    [stdin] is set and empty when it is not, so with a [strerror]
    that never yields the empty text the message is there exactly
    when the indicator is set. In particular, with a buffer of more
    than one byte, end-of-file with no byte read and no error indicator
    gives the null pointer and an empty message. *)
Theorem ReadLine_no_data (w : World) (vwErrMsg : string) (a : addr)
    (buf : list MIchar) :
  m_pCmdBuffer (w_this w) = Some a ->
  w_heap w !! a = Some buf ->
  m_pStdin (w_this w) = Some stdin_ptr ->
  (forall r,
     fgets buf (m_constBufferSize (w_this w)) (w_stdin w) (w_errno w) = Ok r ->
     fg_ret r = false ->
     exists msg w',
       ReadLine vwErrMsg w = Ok (None, msg, w') /\
       w_stdin w' = fg_file r /\ w_errno w' = fg_errno r /\
       (f_err (w_stdin w') = true -> msg = strerror (w_errno w')) /\
       (f_err (w_stdin w') = false -> msg = EmptyString) /\
       ((forall e, strerror e <> EmptyString) ->
        (msg <> EmptyString <-> f_err (w_stdin w') = true))) /\
  ((1 < m_constBufferSize (w_this w))%Z ->
   f_pending (w_stdin w) = [] ->
   f_end (w_stdin w) = EndOfFile ->
   f_err (w_stdin w) = false ->
   exists w',
     ReadLine vwErrMsg w = Ok (None, EmptyString, w') /\
     f_err (w_stdin w') = false /\ w_errno w' = w_errno w).
Proof.
  intros Ha Hb Hp. split.
  - intros r Hf Hret. unfold ReadLine. rewrite Ha, Hb, Hf. simpl.
    rewrite Hret, Hp. simpl. unfold ferror.
    eexists _, _. split; [reflexivity|]. simpl.
    split; [reflexivity|]. split; [reflexivity|].
    destruct (f_err (fg_file r)); simpl.
    + split; [reflexivity|]. split; [discriminate|].
      intros Hne. split; [reflexivity | intros _; apply Hne].
    + split; [discriminate|]. split; [reflexivity|].
      intros _. split; [intros H; contradiction | discriminate].
  - intros Hcap Hpend Hend Herr. unfold ReadLine, fgets. rewrite Ha, Hb.
    destruct (Z.leb_spec (m_constBufferSize (w_this w)) 0); [lia|].
    destruct (f_eof (w_stdin w) && (1 <? m_constBufferSize (w_this w))%Z).
    + simpl. rewrite Hp. unfold ferror. simpl. rewrite Herr. simpl.
      eexists. split; [reflexivity|]. split; [exact Herr | reflexivity].
    + rewrite Hpend, Hend.
      destruct (Z.to_nat (m_constBufferSize (w_this w) - 1)) as [|c] eqn:Hc;
        [lia|].
      simpl. rewrite Hp. unfold ferror. simpl. rewrite Herr. simpl.
      eexists. split; [reflexivity|]. split; reflexivity.
Qed.

(** ** The cancellation flag *)

Lemma Initialize_waitForInput (w : World) :
  m_waitForInput (w_this (snd (Initialize w))) = m_waitForInput (w_this w).
Proof.
  rewrite Initialize_eq. destruct (m_bInitialized (w_this w)); [reflexivity|].
  destruct (bring_up (w_registry w)) as [[reg bOk] errMsg].
  destruct bOk; reflexivity.
Qed.

Lemma Shutdown_waitForInput (w : World) s w' :
  Shutdown w = Ok (s, w') ->
  m_waitForInput (w_this w') = m_waitForInput (w_this w).
Proof.
  rewrite Shutdown_eq.
  destruct (m_bInitialized (w_this w)); [|intros [= <- <-]; reflexivity].
  destruct (m_pCmdBuffer (w_this w)) as [a|];
    [destruct (w_heap w !! a); [|discriminate]|]; simpl;
    destruct (tear_down (w_registry w)) as [[reg bOk] errMsg];
    destruct bOk; intros [= <- <-]; reflexivity.
Qed.

Lemma InterruptReadLine_idem (w : World) :
  InterruptReadLine (InterruptReadLine w) = InterruptReadLine w.
Proof. reflexivity. Qed.

Lemma exec_waitForInput (o : op) (w w' : World) :
  exec o w = Ok w' ->
  m_waitForInput (w_this w')
  = (if interrupts o then false else m_waitForInput (w_this w)).
Proof.
  destruct o; simpl.
  - intros [= <-]. apply Initialize_waitForInput.
  - destruct (Shutdown w) as [[s w1]|] eqn:Hs; [|discriminate].
    simpl. intros [= <-]. eapply Shutdown_waitForInput; eauto.
  - intros [= <-]. unfold InputAvailable. rewrite run_world. simpl.
    destruct (interrupt_free sched); reflexivity.
  - destruct (ReadLine vwErrMsg w) as [[[p msg] w1]|] eqn:Hr; [|discriminate].
    simpl. intros [= <-].
    destruct (ReadLine_this _ _ _ _ _ Hr) as [-> _]. reflexivity.
  - intros [= <-]. reflexivity.
Qed.

(** C9. [m_waitForInput] is true in a constructed object. A call that
    contains no [InterruptReadLine] leaves it as it was, a call that
    contains one leaves it false, so once it is false no sequence of
    calls makes it true again. [InterruptReadLine] twice is
    [InterruptReadLine] once. *)
Theorem waitForInput_latch :
  m_waitForInput ctor = true /\
  (forall (o : op) (w w' : World),
     exec o w = Ok w' -> interrupts o = false ->
     m_waitForInput (w_this w') = m_waitForInput (w_this w)) /\
  (forall (o : op) (w w' : World),
     exec o w = Ok w' -> interrupts o = true ->
     m_waitForInput (w_this w') = false) /\
  (forall (os : list op) (w w' : World),
     exec_all os w = Ok w' ->
     m_waitForInput (w_this w) = false ->
     m_waitForInput (w_this w') = false) /\
  (forall w : World,
     m_waitForInput (w_this (InterruptReadLine w)) = false /\
     InterruptReadLine (InterruptReadLine w) = InterruptReadLine w).
Proof.
  split; [reflexivity|].
  split; [intros o w w' Hex Hi; rewrite (exec_waitForInput _ _ _ Hex), Hi;
          reflexivity|].
  split; [intros o w w' Hex Hi; rewrite (exec_waitForInput _ _ _ Hex), Hi;
          reflexivity|].
  split; [|intros w; split; reflexivity].
  induction os as [|o os IH]; intros w w'; simpl.
  - intros [= <-] Hf. exact Hf.
  - destruct (exec o w) as [w1|] eqn:Hex; [|discriminate]. simpl.
    intros Hall Hf. apply (IH w1 w' Hall).
    rewrite (exec_waitForInput _ _ _ Hex), Hf.
    destruct (interrupts o); reflexivity.
Qed.

(** ** The polling loop once the flag is false *)

Lemma run_cons (ev : event) (sched : list event) (s : World * call) :
  run (ev :: sched) s = run sched (step ev s).
Proof. reflexivity. Qed.

Lemma run_returned (sched : list event) :
  forall w c status,
    c_pc c = Returned status -> snd (run sched (w, c)) = c.
Proof.
  induction sched as [|ev sched IH]; intros w c status Hpc; [reflexivity|].
  rewrite run_cons. destruct ev; simpl.
  - eapply IH; eauto.
  - unfold consumer_step. rewrite Hpc.
    rewrite (IH w c status Hpc). reflexivity.
Qed.


Lemma run_cancelled_at_test (sched : list event) :
  forall w c,
    m_waitForInput (w_this w) = false ->
    c_pc c = AtLoopTest ->
    (1 <= consumer_steps sched)%nat ->
    snd (run sched (w, c))
    = mkCall (Returned MIstatus.failure) (vwbAvail c) (c_polls c).
Proof.
  induction sched as [|ev sched IH]; intros w c Hf Hpc Hn;
    [simpl in Hn; lia|].
  rewrite run_cons. destruct ev; simpl.
  - apply IH; auto.
  - unfold consumer_step. rewrite Hpc, Hf.
    eapply run_returned. reflexivity.
Qed.





Lemma InputAvailable_cancelled (w : World) (avail : bool)
    (sched : list event) :
  m_waitForInput (w_this w) = false ->
  (1 <= consumer_steps sched)%nat ->
  snd (InputAvailable avail sched w)
  = mkCall (Returned MIstatus.failure) avail 0 /\
  w_stdin (fst (InputAvailable avail sched w)) = w_stdin w /\
  w_heap (fst (InputAvailable avail sched w)) = w_heap w.
Proof.
  intros Hf Hn. unfold InputAvailable.
  rewrite run_cancelled_at_test by auto. rewrite run_world. simpl.
  destruct (interrupt_free sched); repeat split.
Qed.

(** ** Where error text is written *)

Lemma Initialize_error_description (w : World) :
  m_strErrorDescription (w_this (snd (Initialize w)))
  = (if fst (Initialize w) then m_strErrorDescription (w_this w)
     else Format (MIRSRC IDS_MI_INIT_ERR_OS_STDIN_HANDLER)
                 (snd (bring_up (w_registry w)))).
Proof.
  rewrite Initialize_eq. destruct (m_bInitialized (w_this w)); [reflexivity|].
  destruct (bring_up (w_registry w)) as [[reg bOk] errMsg].
  destruct bOk; reflexivity.
Qed.

Lemma ReadLine_message (vwErrMsg : string) (w : World) p msg w' :
  ReadLine vwErrMsg w = Ok (p, msg, w') ->
  msg = EmptyString \/
  (p = None /\ f_err (w_stdin w') = true /\ msg = strerror (w_errno w')).
Proof.
  unfold ReadLine.
  destruct (m_pCmdBuffer (w_this w)) as [a|]; [|discriminate].
  destruct (w_heap w !! a) as [buf|]; [|discriminate].
  destruct (fgets buf _ _ _) as [r|]; [|discriminate]. simpl.
  destruct (fg_ret r); simpl.
  - destruct (strip_newline (fg_buf r)); [|discriminate].
    intros [= <- <- <-]. left. reflexivity.
  - destruct (m_pStdin (w_this w)) as [[]|]; [|discriminate].
    unfold ferror. destruct (f_err (fg_file r)) eqn:Herr; simpl;
      intros [= <- <- <-]; [right | left]; auto.
Qed.

(** C6, as the code has it. [ReadLine] clears its [vwErrMsg] before
    anything else (what the caller passed in plays no part) and leaves
    a text in it only on the path where nothing was read and the error
    indicator of [stdin] is set; it never touches the stored error
    description. [Initialize] does not clear the stored description:
    when it returns success the description is what it was, when it
    returns failure it is the formatted start-up message.
    [InputAvailable] neither clears nor sets it. *)
Theorem error_text_where_written :
  (forall (w : World) v1 v2, ReadLine v1 w = ReadLine v2 w) /\
  (forall (w : World) v p msg w',
     ReadLine v w = Ok (p, msg, w') ->
     m_strErrorDescription (w_this w') = m_strErrorDescription (w_this w) /\
     (msg = EmptyString \/
      (p = None /\ f_err (w_stdin w') = true /\
       msg = strerror (w_errno w')))) /\
  (forall w : World,
     m_strErrorDescription (w_this (snd (Initialize w)))
     = (if fst (Initialize w) then m_strErrorDescription (w_this w)
        else Format (MIRSRC IDS_MI_INIT_ERR_OS_STDIN_HANDLER)
                    (snd (bring_up (w_registry w))))) /\
  (forall (w : World) avail sched,
     m_strErrorDescription (w_this (fst (InputAvailable avail sched w)))
     = m_strErrorDescription (w_this w)).
Proof.
  split; [reflexivity|].
  split.
  { intros w v p msg w' Hr. split.
    - destruct (ReadLine_this _ _ _ _ _ Hr) as [-> _]. reflexivity.
    - eapply ReadLine_message; eauto. }
  split; [apply Initialize_error_description|].
  intros w avail sched. unfold InputAvailable. rewrite run_world. simpl.
  destruct (interrupt_free sched); reflexivity.
Qed.

End Properties.

(** * The methods run on concrete worlds *)

Lemma ready_world_reachable : reachable ready_world.
Proof.
  apply (reach_exec OpInitialize (fresh_world [] step_line)).
  - apply reach_ctor.
  - reflexivity.
Qed.

(** C1: the cancelled call at its failing input. The flag is false and
    the caller's variable holds [true]: [InputAvailable] returns failure
    without issuing a [::select] and without reading from [stdin], and the
    variable still holds [true]; the path that leaves the loop does not
    write [vwbAvail], unlike the path for a failing [::select]. *)
Theorem InputAvailable_cancelled_vwbAvail_unwritten :
  let w := InterruptReadLine ready_world in
  let r := InputAvailable true [Consumer 1] w in
  c_pc (snd r) = Returned MIstatus.failure /\
  vwbAvail (snd r) = true /\
  c_polls (snd r) = 0%nat /\
  w_stdin (fst r) = w_stdin w /\
  vwbAvail (snd (InputAvailable true [Consumer 1; Consumer (-1)] ready_world))
  = false.
Proof.
  intros w r.
  destruct (InputAvailable_cancelled w true [Consumer 1%Z] eq_refl)
    as (Hc & Hs & _); [simpl; lia|].
  subst r. rewrite Hc, Hs. repeat split.
Qed.

Lemma LF_not_in_step : LF ∉ bytes_of "step".
Proof.
  intros Hin. repeat (apply elem_of_cons in Hin as [Hin | Hin]; [discriminate|]).
  inversion Hin.
Qed.

Lemma drained_world_reachable : reachable drained_world.
Proof.
  apply (reach_exec OpInitialize (fresh_world [] [])); [apply reach_ctor|].
  reflexivity.
Qed.

Lemma stubborn_world_reachable : reachable stubborn_world.
Proof.
  apply (reach_exec OpInitialize (fresh_world [true; true; false] []));
    [apply reach_ctor | reflexivity].
Qed.

(** [ReadLine] on [step] and a new-line returns [step]. *)
Lemma ReadLine_returns_line_witness :
  exists w',
    ReadLine EmptyString ready_world = Ok (Some 0%nat, EmptyString, w') /\
    f_pending (w_stdin w') = [] /\
    line_at 0%nat w' = Some (bytes_of "step").
Proof.
  destruct (ReadLine_returns_line ready_world 0%nat (replicate 1024 NUL)
              EmptyString (bytes_of "step") [])
    as (w' & line & Hr & Hpend & _ & Hline & _ & Hb & _).
  - vm_compute. reflexivity.
  - vm_compute. reflexivity.
  - vm_compute. reflexivity.
  - reflexivity.
  - reflexivity.
  - exact LF_not_in_step.
  - vm_compute. reflexivity.
  - exists w'. split; [exact Hr|]. split.
    + apply (f_equal (drop 5)) in Hpend. simpl in Hpend. symmetry. exact Hpend.
    + rewrite Hline, Hb. reflexivity.
Defined.

(** [ReadLine] straight after [Shutdown] is outside defined behaviour. *)
Lemma ReadLine_after_Shutdown_witness :
  exists w1,
    Shutdown ready_world = Ok (MIstatus.success, w1) /\
    ReadLine EmptyString w1 = Undefined NullBufferAccess.
Proof.
  destruct (ReadLine_after_Shutdown ready_world EmptyString
              ready_world_reachable)
    as (w1 & Hs & _ & _ & Hr & _).
  exists w1. split; [exact Hs | exact Hr].
Defined.

(** C3 as stated fails: after [Initialize] and [Shutdown], [ReadLine] does
    not return at all within defined behaviour, so it does not fail in a
    defined way. *)
Lemma ReadLine_after_Shutdown_not_defined :
  Shutdown ready_world = Ok (MIstatus.success, after_Shutdown ready_world) /\
  m_bInitialized (w_this (after_Shutdown ready_world)) = false /\
  ReadLine EmptyString (after_Shutdown ready_world)
  = Undefined NullBufferAccess /\
  ~ (exists p msg w',
       ReadLine EmptyString (after_Shutdown ready_world) = Ok (p, msg, w')).
Proof.
  split; [vm_compute; reflexivity|].
  split; [vm_compute; reflexivity|].
  assert (ReadLine EmptyString (after_Shutdown ready_world)
          = Undefined NullBufferAccess) as Hr by (vm_compute; reflexivity).
  split; [exact Hr|].
  intros (p & msg & w' & Hok). rewrite Hr in Hok. discriminate.
Qed.

(** [Shutdown] with a module that fails to stop still returns success. *)
Lemma Shutdown_always_succeeds_witness :
  exists w',
    Shutdown stubborn_world = Ok (MIstatus.success, w') /\
    m_bInitialized (w_this w') = false /\
    m_strErrorDescription (w_this w')
    = "stdin handler shutdown: module failed to stop"%string.
Proof.
  destruct (Shutdown_always_succeeds stubborn_world stubborn_world_reachable)
    as (w' & Hs & Hi & Hd).
  exists w'. split; [exact Hs|]. split; [exact Hi|].
  rewrite Hd; reflexivity.
Defined.



(** The error texts on concrete runs. *)
Lemma error_text_where_written_witness :
  m_strErrorDescription (w_this (snd (Initialize unlucky_world)))
  = "stdin handler: module failed to start"%string /\
  m_strErrorDescription
    (w_this (fst (InputAvailable true [Consumer (-1)] ready_world)))
  = EmptyString /\
  ReadLine "stale"%string broken_world = ReadLine EmptyString broken_world.
Proof.
  destruct (@error_text_where_written scripted) as (Hclear & _ & Hinit & Hwait).
  split; [rewrite Hinit; reflexivity|].
  split; [rewrite Hwait; reflexivity|].
  apply Hclear.
Defined.

(** C6 as stated fails: a failed [Initialize] records its message, and the
    [Initialize] that follows succeeds without clearing it. *)
Lemma Initialize_keeps_stale_error :
  let w1 := snd (Initialize unlucky_world) in
  fst (Initialize unlucky_world) = MIstatus.failure /\
  fst (Initialize w1) = MIstatus.success /\
  m_strErrorDescription (w_this (snd (Initialize w1)))
  = "stdin handler: module failed to start"%string /\
  m_strErrorDescription (w_this (snd (Initialize w1))) <> EmptyString.
Proof.
  split; [reflexivity|]. split; [reflexivity|]. split; [reflexivity|].
  discriminate.
Qed.

(** End-of-file gives no line and no message; a failing read gives no
    line and the text of [errno]. *)
Lemma ReadLine_no_data_witness :
  (exists w',
     ReadLine EmptyString drained_world = Ok (None, EmptyString, w')) /\
  (exists w',
     ReadLine EmptyString broken_world
     = Ok (None, "Input/output error"%string, w')).
Proof.
  split.
  - destruct (ReadLine_no_data drained_world EmptyString 0%nat
                (replicate 1024 NUL)) as [_ Heof];
      [vm_compute; reflexivity | vm_compute; reflexivity | reflexivity |].
    destruct Heof as (w' & Hr & _);
      [vm_compute; reflexivity | reflexivity | reflexivity | reflexivity |].
    exists w'. exact Hr.
  - destruct (ReadLine_no_data broken_world EmptyString 0%nat
                (replicate 1024 NUL)) as [Hnull _];
      [vm_compute; reflexivity | vm_compute; reflexivity | reflexivity |].
    destruct (Hnull (mk_fgets false (replicate 1024 NUL)
                       (mkFILE [] (ReadError 5) false true) 5%Z))
      as (msg & w' & Hr & Hf & He & Hmsg & _);
      [vm_compute; reflexivity | reflexivity |].
    exists w'. rewrite Hr, (Hmsg ltac:(rewrite Hf; reflexivity)), He.
    reflexivity.
Defined.

(** [Initialize], [Shutdown], [Initialize] on a constructed reader. *)
Lemma Initialize_Shutdown_idempotent_witness :
  fst (Initialize (after_Shutdown ready_world)) = MIstatus.success /\
  usable (snd (Initialize (after_Shutdown ready_world))) /\
  Shutdown (fresh_world [] step_line)
  = Ok (MIstatus.success, fresh_world [] step_line).
Proof.
  destruct (@Initialize_Shutdown_idempotent scripted)
    as (_ & Hnoop & _ & _ & Hagain).
  destruct (Hagain (fresh_world [] step_line) ready_world
              (after_Shutdown ready_world) MIstatus.success)
    as (Hok & _ & Hu & _).
  - apply reach_ctor.
  - reflexivity.
  - vm_compute. reflexivity.
  - reflexivity.
  - split; [exact Hok|]. split; [exact Hu|]. apply Hnoop. reflexivity.
Defined.

(** Once interrupted, a reader stays interrupted through a whole session. *)
Lemma waitForInput_latch_witness :
  match exec_all [OpInitialize; OpInputAvailable true [Consumer 0; Consumer 1];
                  OpReadLine EmptyString; OpShutdown; OpInitialize]
                 (InterruptReadLine (fresh_world [] step_line)) with
  | Ok w' => m_waitForInput (w_this w') = false
  | Undefined _ => False
  end.
Proof.
  destruct (@waitForInput_latch scripted) as (_ & _ & _ & Hstays & _).
  destruct (exec_all _ _) as [w'|f] eqn:Hex.
  - apply (Hstays _ _ _ Hex). reflexivity.
  - vm_compute in Hex. discriminate.
Defined.

(** A failed [Initialize] on a constructed reader. *)
Lemma Initialize_failure_leaves_state_witness :
  let w' := snd (Initialize unlucky_world) in
  w_heap w' = w_heap unlucky_world /\
  m_pCmdBuffer (w_this w') = None /\
  Shutdown w' = Ok (MIstatus.success, w').
Proof.
  destruct (Initialize_failure_leaves_state unlucky_world)
    as (_ & Hh & Hb & _ & _ & Hs).
  - apply reach_ctor.
  - reflexivity.
  - split; [exact Hh|]. split; [exact Hb | exact Hs].
Defined.


(** * Further properties of the methods *)

(** ** What [fgets] takes *)

Lemma getline_shape (count : nat) (s : list MIchar) :
  forall chunk rest k,
    getline count s = (chunk, rest, k) ->
    match k with
    | AtNewline => exists l, chunk = l ++ [LF] /\ LF ∉ l
    | AtCount => (LF ∉ chunk) /\ length chunk = count
    | AtEnd => (LF ∉ chunk) /\ rest = []
    end.
Proof.
  revert s. induction count as [|c IH]; intros s chunk rest k; simpl.
  - intros [= <- <- <-]. split; [apply not_elem_of_nil | reflexivity].
  - destruct s as [|b s'].
    + intros [= <- <- <-]. split; [apply not_elem_of_nil | reflexivity].
    + destruct (Byte.eqb b LF) eqn:Hb.
      * intros [= <- <- <-]. apply eqb_byte_true in Hb as ->.
        exists []. split; [reflexivity | apply not_elem_of_nil].
      * destruct (getline c s') as [[l r] k'] eqn:Hg.
        intros [= <- <- <-]. specialize (IH _ _ _ _ Hg).
        apply eqb_byte_false in Hb.
        destruct k'.
        -- destruct IH as (l0 & -> & Hl0). exists (b :: l0).
           split; [reflexivity|]. apply not_elem_of_cons. split; congruence.
        -- destruct IH as [Hl Hlen]. split; [|simpl; congruence].
           apply not_elem_of_cons. split; congruence.
        -- destruct IH as [Hl Hr]. split; [|exact Hr].
           apply not_elem_of_cons. split; congruence.
Qed.

Lemma getline_full (l rest : list MIchar) :
  LF ∉ l -> getline (length l) (l ++ rest) = (l, rest, AtCount).
Proof.
  induction l as [|b l IH]; intros Hnot; [reflexivity|].
  apply not_elem_of_cons in Hnot as [Hb Hl]. simpl.
  assert (Byte.eqb b LF = false) as -> by (apply eqb_byte_false; congruence).
  rewrite (IH Hl). reflexivity.
Qed.

Lemma getline_drained (l : list MIchar) :
  LF ∉ l ->
  forall count, (length l < count)%nat -> getline count l = (l, [], AtEnd).
Proof.
  induction l as [|b l IH]; intros Hnot count Hlen.
  - destruct count; [simpl in Hlen; lia | reflexivity].
  - destruct count as [|c]; [simpl in Hlen; lia|].
    apply not_elem_of_cons in Hnot as [Hb Hl]. simpl.
    assert (Byte.eqb b LF = false) as -> by (apply eqb_byte_false; congruence).
    rewrite (IH Hl c) by (simpl in Hlen; lia). reflexivity.
Qed.

(** [fgets] on an array of at least [n] bytes and a stream whose
    end-of-file indicator is clear, case by case. *)
Lemma fgets_eq (buf : list MIchar) (n : Z) (f : FILE) (errno : Z)
    chunk rest k :
  (0 < n)%Z ->
  (Z.to_nat n <= length buf)%nat ->
  f_eof f = false ->
  getline (Z.to_nat (n - 1)) (f_pending f) = (chunk, rest, k) ->
  fgets buf n f errno
  = Ok (match k, f_end f with
        | AtEnd, ReadError e =>
            match chunk with
            | [] => mk_fgets false buf (mkFILE rest (f_end f) (f_eof f) true) e
            | _ =>
                if (e =? EAGAIN)%Z
                then mk_fgets true
                              (chunk ++ NUL :: drop (S (length chunk)) buf)
                              (mkFILE rest (f_end f) (f_eof f) true) e
                else mk_fgets false (chunk ++ drop (length chunk) buf)
                              (mkFILE rest (f_end f) (f_eof f) true) e
            end
        | AtEnd, EndOfFile =>
            match chunk with
            | [] => mk_fgets false buf (after_read f rest k) errno
            | _ => mk_fgets true (chunk ++ NUL :: drop (S (length chunk)) buf)
                            (after_read f rest k) errno
            end
        | _, _ => mk_fgets true (chunk ++ NUL :: drop (S (length chunk)) buf)
                           (after_read f rest k) errno
        end).
Proof.
  intros Hn Hbuf Heof Hg. unfold fgets, after_read.
  destruct (Z.leb_spec n 0); [lia|]. rewrite Heof, Hg. simpl.
  destruct (getline_split _ _ _ _ _ Hg) as [_ Hlen].
  assert (store (chunk ++ [NUL]) buf
          = Ok (chunk ++ NUL :: drop (S (length chunk)) buf)) as Hst.
  { rewrite store_fits by (rewrite length_app; simpl; lia).
    rewrite <- app_assoc, length_app. simpl.
    replace (length chunk + 1)%nat with (S (length chunk)) by lia.
    reflexivity. }
  assert (store chunk buf = Ok (chunk ++ drop (length chunk) buf)) as Hst2
    by (apply store_fits; lia).
  destruct k, (f_end f); try (rewrite Hst; reflexivity).
  - destruct chunk; [reflexivity|]. rewrite Hst. reflexivity.
  - destruct chunk as [|b chunk]; [reflexivity|].
    destruct (e =? EAGAIN)%Z; [rewrite Hst | rewrite Hst2]; reflexivity.
Qed.

(** Once the end-of-file indicator is set, [fgets] delivers nothing. *)
Lemma fgets_at_eof (buf : list MIchar) (n : Z) (f : FILE) (errno : Z) :
  (1 < n)%Z ->
  f_eof f = true ->
  fgets buf n f errno = Ok (mk_fgets false buf f errno).
Proof.
  intros Hn Heof. unfold fgets.
  destruct (Z.leb_spec n 0); [lia|]. rewrite Heof.
  destruct (Z.ltb_spec 1 n); [reflexivity | lia].
Qed.

(** [fgets] sets the end-of-file indicator only on a drained stream that
    ends cleanly. *)
Lemma fgets_eof_drained (buf : list MIchar) n f errno r :
  fgets buf n f errno = Ok r ->
  (f_eof f = true -> f_pending f = [] /\ f_end f = EndOfFile) ->
  f_eof (fg_file r) = true ->
  f_pending (fg_file r) = [] /\ f_end (fg_file r) = EndOfFile.
Proof.
  unfold fgets. destruct (n <=? 0)%Z; [intros [= <-]; auto|].
  destruct (f_eof f && (1 <? n)%Z) eqn:Hsticky; [intros [= <-]; auto|].
  destruct (getline _ _) as [[chunk rest] k] eqn:Hg.
  pose proof (getline_shape _ _ _ _ _ Hg) as Hshape.
  destruct (getline_split _ _ _ _ _ Hg) as [Hsplit _].
  intros Hr Hin.
  assert (f_eof f = true -> rest = [] /\ f_end f = EndOfFile) as Hkeep.
  { intros Heof. destruct (Hin Heof) as [Hp He]. split; [|exact He].
    rewrite Hp in Hsplit. symmetry in Hsplit.
    apply app_eq_nil in Hsplit. tauto. }
  destruct (store (chunk ++ [NUL]) buf) as [buf1|];
    destruct (store chunk buf) as [buf2|];
    destruct k, (f_end f) eqn:He; try destruct chunk;
    try destruct (_ =? EAGAIN)%Z;
    simpl in Hr; try discriminate; injection Hr as <-; simpl;
    try exact Hkeep; intros _; (split; [apply Hshape | reflexivity]).
Qed.

Lemma before_terminator_stop (l t : list MIchar) (b : MIchar) :
  NUL ∉ l -> LF ∉ l -> CR ∉ l ->
  b = NUL \/ b = LF \/ b = CR ->
  before_terminator (l ++ b :: t) = l.
Proof.
  induction l as [|c l IH]; intros H0 H1 H2 Hb; simpl.
  - destruct Hb as [-> | [-> | ->]]; reflexivity.
  - apply not_elem_of_cons in H0 as [? ?].
    apply not_elem_of_cons in H1 as [? ?].
    apply not_elem_of_cons in H2 as [? ?].
    assert (Byte.eqb c NUL = false) as -> by (apply eqb_byte_false; congruence).
    assert (Byte.eqb c LF = false) as -> by (apply eqb_byte_false; congruence).
    assert (Byte.eqb c CR = false) as -> by (apply eqb_byte_false; congruence).
    simpl. f_equal. auto.
Qed.

Section Further.
Context `{E : Externals}.

(** [ReadLine] on a live buffer of [m_constBufferSize] bytes, when
    [fgets] delivers [chunk]: a new-line or the limit was met, or the
    stream ended cleanly after at least one byte. *)
Lemma ReadLine_delivers (w : World) (vwErrMsg : string) a buf chunk rest k :
  m_pCmdBuffer (w_this w) = Some a ->
  w_heap w !! a = Some buf ->
  (0 < m_constBufferSize (w_this w))%Z ->
  (Z.to_nat (m_constBufferSize (w_this w)) <= length buf)%nat ->
  f_eof (w_stdin w) = false ->
  getline (Z.to_nat (m_constBufferSize (w_this w) - 1))
          (f_pending (w_stdin w)) = (chunk, rest, k) ->
  (k = AtEnd -> f_end (w_stdin w) = EndOfFile /\ chunk <> []) ->
  exists buf',
    ReadLine vwErrMsg w
    = Ok (Some a, EmptyString,
          mkWorld (w_this w) (<[a := buf']> (w_heap w))
                  (after_read (w_stdin w) rest k) (w_errno w)
                  (w_registry w)) /\
    cstr buf' = before_terminator chunk /\
    length buf' = length buf.
Proof.
  intros Ha Hb Hn Hlen Heof Hg Hk.
  destruct (strip_newline_terminated chunk (drop (S (length chunk)) buf))
    as (buf' & Hstrip & Hc).
  exists buf'. unfold ReadLine. rewrite Ha, Hb.
  rewrite (fgets_eq _ _ _ _ _ _ _ Hn Hlen Heof Hg).
  assert (length buf' = length buf) as Hl.
  { rewrite (strip_newline_length _ _ Hstrip).
    destruct (getline_split _ _ _ _ _ Hg) as [_ Hc1].
    rewrite length_app. simpl. rewrite length_drop. lia. }
  destruct k; simpl.
  - rewrite Hstrip. auto.
  - rewrite Hstrip. auto.
  - destruct (Hk eq_refl) as [-> Hne].
    destruct chunk as [|b chunk]; [contradiction|]. simpl.
    simpl in Hstrip. rewrite Hstrip. auto.
Qed.

(** X1. On every reachable world with an initialised reader, [ReadLine]
    stays within defined behaviour, whatever [stdin] holds: it returns,
    and what it returns is the null pointer or [m_pCmdBuffer]. *)
Theorem ReadLine_defined (w : World) (vwErrMsg : string) :
  reachable w ->
  m_bInitialized (w_this w) = true ->
  exists p msg w',
    ReadLine vwErrMsg w = Ok (p, msg, w') /\
    (p = None \/ p = m_pCmdBuffer (w_this w)).
Proof.
  intros Hw Hi.
  destruct (reachable_invariant w Hw)
    as [Hcap [(_ & Hs & a & buf & Ha & Hb & Hl) | (Hn & _)]]; [|congruence].
  assert (0 < m_constBufferSize (w_this w))%Z as Hpos by lia.
  assert (Z.to_nat (m_constBufferSize (w_this w)) <= length buf)%nat as Hfit
    by lia.
  destruct (f_eof (w_stdin w)) eqn:Heof.
  { unfold ReadLine. rewrite Ha, Hb.
    rewrite fgets_at_eof by (auto; lia). simpl. rewrite Hs.
    eexists _, _, _. split; [reflexivity | left; reflexivity]. }
  destruct (getline (Z.to_nat (m_constBufferSize (w_this w) - 1))
                    (f_pending (w_stdin w))) as [[chunk rest] k] eqn:Hg.
  assert (k = AtEnd /\ (f_end (w_stdin w) <> EndOfFile \/ chunk = [])
          \/ (k = AtEnd -> f_end (w_stdin w) = EndOfFile /\ chunk <> []))
    as [[-> Hbad] | Hgood].
  { destruct k; [right; discriminate | right; discriminate |].
    destruct (f_end (w_stdin w)); [|left; split; auto; left; discriminate].
    destruct chunk; [left; auto | right; intros _; split; [auto|discriminate]]. }
  - unfold ReadLine. rewrite Ha, Hb.
    rewrite (fgets_eq _ _ _ _ _ _ _ Hpos Hfit Heof Hg).
    destruct (f_end (w_stdin w)) eqn:He.
    + destruct Hbad as [Hbad | ->]; [contradiction|]. simpl. rewrite Hs.
      eexists _, _, _. split; [reflexivity | left; reflexivity].
    + destruct chunk as [|b chunk].
      * simpl. rewrite Hs.
        eexists _, _, _. split; [reflexivity | left; reflexivity].
      * destruct (e =? EAGAIN)%Z; simpl.
        -- destruct (strip_newline_terminated (b :: chunk)
                       (drop (S (length (b :: chunk))) buf))
             as (buf' & Hstrip & _).
           simpl in Hstrip. rewrite Hstrip.
           eexists _, _, _. split; [reflexivity | right; reflexivity].
        -- rewrite Hs.
           eexists _, _, _. split; [reflexivity | left; reflexivity].
  - destruct (ReadLine_delivers w vwErrMsg a buf chunk rest k Ha Hb
                Hpos Hfit Heof Hg Hgood) as (buf' & Hr & _).
    eexists _, _, _. split; [exact Hr | right; symmetry; exact Ha].
Qed.

Lemma initialised_live (w : World) :
  reachable w ->
  m_bInitialized (w_this w) = true ->
  m_constBufferSize (w_this w) = 1024%Z /\
  m_pStdin (w_this w) = Some stdin_ptr /\
  exists a buf,
    m_pCmdBuffer (w_this w) = Some a /\ w_heap w !! a = Some buf /\
    length buf = 1024%nat.
Proof.
  intros Hw Hi.
  destruct (reachable_invariant w Hw)
    as [Hcap [(_ & Hs & a & buf & Ha & Hb & Hl) | (Hn & _)]]; [|congruence].
  split; [exact Hcap|]. split; [exact Hs|].
  exists a, buf. rewrite Hcap in Hl. auto.
Qed.

(** On an initialised reader the end-of-file indicator of [stdin] is set
    only when the stream is drained and ended cleanly: [Initialize]
    cleared it and only [fgets] meeting the end sets it. *)
Lemma reachable_eof_drained (w : World) :
  reachable w ->
  m_bInitialized (w_this w) = true ->
  f_eof (w_stdin w) = true ->
  f_pending (w_stdin w) = [] /\ f_end (w_stdin w) = EndOfFile.
Proof.
  induction 1 as [h f e reg | o w w' Hw IH Hex]; [discriminate|].
  destruct o; simpl in Hex.
  - injection Hex as <-. rewrite Initialize_eq.
    destruct (m_bInitialized (w_this w)) eqn:Hinit;
      [simpl; intros _; apply IH; reflexivity|].
    destruct (bring_up (w_registry w)) as [[reg bOk] errMsg].
    destruct bOk; simpl; discriminate.
  - destruct (invariant_Shutdown w (reachable_invariant w Hw))
      as (w1 & Hs & _ & (Hi1 & _) & _).
    rewrite Hs in Hex. simpl in Hex. injection Hex as <-. congruence.
  - injection Hex as <-. unfold InputAvailable. rewrite run_world. simpl.
    destruct (interrupt_free sched); exact IH.
  - destruct (ReadLine vwErrMsg w) as [[[p msg] w1]|] eqn:Hr; [|discriminate].
    simpl in Hex. injection Hex as <-.
    destruct (ReadLine_this _ _ _ _ _ Hr) as [Hthis _]. rewrite Hthis.
    intros Hi. specialize (IH Hi). revert Hr. unfold ReadLine.
    destruct (m_pCmdBuffer (w_this w)) as [a|]; [|discriminate].
    destruct (w_heap w !! a) as [buf|]; [|discriminate].
    destruct (fgets buf _ _ _) as [r|] eqn:Hf; [|discriminate]. simpl.
    pose proof (fgets_eof_drained _ _ _ _ _ Hf IH) as Hd.
    destruct (fg_ret r); simpl.
    + destruct (strip_newline (fg_buf r)); [|discriminate].
      intros [= <- <- <-]. exact Hd.
    + destruct (m_pStdin (w_this w)) as [[]|]; [|discriminate].
      intros [= <- <- <-]. exact Hd.
  - injection Hex as <-. exact IH.
Qed.

(** The shape [ReadLine_delivers] takes on a reachable initialised world. *)
Lemma ReadLine_delivers_reachable (w : World) (vwErrMsg : string)
    chunk rest k :
  reachable w ->
  m_bInitialized (w_this w) = true ->
  getline 1023 (f_pending (w_stdin w)) = (chunk, rest, k) ->
  (k = AtEnd -> f_end (w_stdin w) = EndOfFile /\ chunk <> []) ->
  exists a w',
    m_pCmdBuffer (w_this w) = Some a /\
    ReadLine vwErrMsg w = Ok (Some a, EmptyString, w') /\
    line_at a w' = Some (before_terminator chunk) /\
    w_stdin w' = after_read (w_stdin w) rest k /\
    w_this w' = w_this w /\ w_errno w' = w_errno w.
Proof.
  intros Hw Hi Hg Hk.
  destruct (initialised_live w Hw Hi) as (Hcap & _ & a & buf & Ha & Hb & Hl).
  assert (f_eof (w_stdin w) = false) as Heof.
  { destruct (f_eof (w_stdin w)) eqn:Heof; [|reflexivity].
    destruct (reachable_eof_drained w Hw Hi Heof) as [Hnil _].
    rewrite Hnil in Hg.
    injection Hg as <- <- <-. destruct (Hk eq_refl) as [_ Hne].
    contradiction. }
  destruct (ReadLine_delivers w vwErrMsg a buf chunk rest k Ha Hb)
    as (buf' & Hr & Hc & _); try (rewrite Hcap; simpl; lia); auto.
  { rewrite Hcap. exact Hg. }
  eexists a, _. split; [exact Ha|]. split; [exact Hr|].
  unfold line_at. simpl. rewrite lookup_insert_eq. simpl. rewrite Hc.
  auto.
Qed.

Lemma fgets_true (buf : list MIchar) n f errno r :
  fgets buf n f errno = Ok r ->
  fg_ret r = true ->
  exists chunk rest k,
    getline (Z.to_nat (n - 1)) (f_pending f) = (chunk, rest, k) /\
    (0 < n)%Z /\
    fg_buf r = chunk ++ NUL :: drop (S (length chunk)) buf /\
    f_pending (fg_file r) = rest.
Proof.
  unfold fgets. destruct (Z.leb_spec n 0) as [Hn|Hn].
  { intros [= <-]. discriminate. }
  destruct (f_eof f && (1 <? n)%Z).
  { intros [= <-]. discriminate. }
  destruct (getline _ _) as [[chunk rest] k] eqn:Hg.
  assert (forall buf', store (chunk ++ [NUL]) buf = Ok buf' ->
                       buf' = chunk ++ NUL :: drop (S (length chunk)) buf)
    as Hst.
  { unfold store. intros buf'. destruct (_ <=? _)%nat; [|discriminate].
    intros [= <-]. rewrite <- app_assoc, length_app. simpl.
    replace (length chunk + 1)%nat with (S (length chunk)) by lia.
    reflexivity. }
  intros Hr Hret. exists chunk, rest, k. split; [reflexivity|].
  split; [exact Hn|].
  destruct (store (chunk ++ [NUL]) buf) as [buf1|] eqn:Hs1;
    [specialize (Hst _ eq_refl) | clear Hst];
    destruct (store chunk buf) as [buf2|];
    destruct k, (f_end f); simpl in Hr;
    try (destruct chunk; simpl in Hr);
    try destruct (_ =? EAGAIN)%Z; simpl in Hr;
    try discriminate;
    injection Hr as <-; try discriminate;
    subst; repeat split.
Qed.

(** X2. Whenever [ReadLine] returns a line, the pointer is
    [m_pCmdBuffer], the message is empty, and the line is a prefix of what
    was taken from [stdin]: the bytes taken, at most
    [m_constBufferSize - 1] of them and none after a LF, cut at their
    first NUL, LF or CR. *)
Theorem ReadLine_line_from_consumed (w : World) (vwErrMsg : string)
    p msg w' :
  ReadLine vwErrMsg w = Ok (Some p, msg, w') ->
  m_pCmdBuffer (w_this w) = Some p /\
  msg = EmptyString /\
  exists chunk,
    f_pending (w_stdin w) = chunk ++ f_pending (w_stdin w') /\
    (Z.of_nat (length chunk) <= m_constBufferSize (w_this w) - 1)%Z /\
    ((LF ∉ chunk) \/ exists l, chunk = l ++ [LF] /\ LF ∉ l) /\
    line_at p w' = Some (before_terminator chunk).
Proof.
  unfold ReadLine.
  destruct (m_pCmdBuffer (w_this w)) as [a|]; [|discriminate].
  destruct (w_heap w !! a) as [buf|]; [|discriminate].
  destruct (fgets buf _ _ _) as [r|] eqn:Hf; [|discriminate]. simpl.
  destruct (fg_ret r) eqn:Hret; simpl.
  2:{ destruct (m_pStdin (w_this w)) as [[]|]; discriminate. }
  destruct (fgets_true _ _ _ _ _ Hf Hret)
    as (chunk & rest & k & Hg & Hn & Hbuf & Hfile).
  destruct (strip_newline_terminated chunk (drop (S (length chunk)) buf))
    as (buf' & Hstrip & Hc).
  rewrite Hbuf, Hstrip. intros [= <- <- <-].
  split; [reflexivity|]. split; [reflexivity|].
  exists chunk. simpl. rewrite Hfile. simpl.
  destruct (getline_split _ _ _ _ _ Hg) as [Hsplit Hlen].
  split; [exact Hsplit|]. split; [lia|]. split.
  - pose proof (getline_shape _ _ _ _ _ Hg) as Hshape.
    destruct k; [right; exact Hshape | left; tauto | left; tauto].
  - unfold line_at. simpl. rewrite lookup_insert_eq. simpl. rewrite Hc.
    reflexivity.
Qed.

(** X3. A line too long for the buffer is cut, not refused: when the
    first 1023 bytes on [stdin] hold no LF, [ReadLine] on an initialised
    reader returns those 1023 bytes (up to their first NUL or CR) and
    leaves everything behind them on the stream for the next call. *)
Theorem ReadLine_truncates_long_line (w : World) (vwErrMsg : string)
    (l rest : list MIchar) :
  reachable w ->
  m_bInitialized (w_this w) = true ->
  f_pending (w_stdin w) = l ++ rest ->
  length l = 1023%nat ->
  LF ∉ l ->
  exists a w',
    ReadLine vwErrMsg w = Ok (Some a, EmptyString, w') /\
    line_at a w' = Some (before_terminator l) /\
    f_pending (w_stdin w') = rest /\
    f_eof (w_stdin w') = f_eof (w_stdin w).
Proof.
  intros Hw Hi Hpend Hlen Hnot.
  destruct (ReadLine_delivers_reachable w vwErrMsg l rest AtCount Hw Hi)
    as (a & w' & _ & Hr & Hline & Hstdin & _).
  - rewrite Hpend, <- Hlen. apply getline_full, Hnot.
  - discriminate.
  - exists a, w'. rewrite Hstdin. auto.
Qed.

(** X4. A last line without a new-line is still delivered: when [stdin]
    ends cleanly after the bytes [l] (not empty, no LF, fewer than 1023),
    [ReadLine] returns them (up to their first NUL or CR) and sets the
    end-of-file indicator; the [ReadLine] after that returns the null
    pointer, with an empty message when no error indicator is set. *)
Theorem ReadLine_last_line_without_newline (w : World) (vwErrMsg : string)
    (l : list MIchar) :
  reachable w ->
  m_bInitialized (w_this w) = true ->
  f_pending (w_stdin w) = l ->
  f_end (w_stdin w) = EndOfFile ->
  l <> [] ->
  LF ∉ l ->
  (length l < 1023)%nat ->
  exists a w',
    ReadLine vwErrMsg w = Ok (Some a, EmptyString, w') /\
    line_at a w' = Some (before_terminator l) /\
    f_pending (w_stdin w') = [] /\
    f_eof (w_stdin w') = true /\
    exists w'',
      ReadLine vwErrMsg w'
      = Ok (None,
            if f_err (w_stdin w) then strerror (w_errno w) else EmptyString,
            w'').
Proof.
  intros Hw Hi Hpend Hend Hne Hnot Hlen.
  destruct (ReadLine_delivers_reachable w vwErrMsg l [] AtEnd Hw Hi)
    as (a & w' & Ha & Hr & Hline & Hstdin & Hthis & Herrno).
  - rewrite Hpend. apply getline_drained; [exact Hnot | lia].
  - intros _. split; assumption.
  - exists a, w'. rewrite Hstdin. simpl.
    split; [exact Hr|]. split; [exact Hline|].
    split; [reflexivity|]. split; [reflexivity|].
    assert (reachable w') as Hw'.
    { apply (reach_exec (OpReadLine vwErrMsg) w); [exact Hw|].
      simpl. rewrite Hr. reflexivity. }
    assert (m_bInitialized (w_this w') = true) as Hi' by congruence.
    destruct (initialised_live w' Hw' Hi')
      as (Hcap & Hs & a' & buf' & Ha' & Hb' & Hl').
    unfold ReadLine. rewrite Ha', Hb'.
    rewrite fgets_at_eof;
      [| rewrite Hcap; lia | rewrite Hstdin; reflexivity].
    simpl. rewrite Hs. unfold ferror. rewrite Hstdin. simpl. rewrite Herrno.
    destruct (f_err (w_stdin w)); eexists; reflexivity.
Qed.

(** X5. What follows a CR or a NUL inside a line is read and dropped:
    for a line [l1 b l2] ended by LF, with [b] a CR or a NUL, [l1] free of
    NUL, CR and LF and the whole shorter than 1023 bytes, [ReadLine]
    returns [l1] and the stream continues behind the LF; the bytes [l2]
    are gone. *)
Theorem ReadLine_drops_rest_of_line (w : World) (vwErrMsg : string)
    (l1 l2 rest : list MIchar) (b : MIchar) :
  reachable w ->
  m_bInitialized (w_this w) = true ->
  f_pending (w_stdin w) = (l1 ++ b :: l2) ++ LF :: rest ->
  b = CR \/ b = NUL ->
  NUL ∉ l1 -> LF ∉ l1 -> CR ∉ l1 ->
  LF ∉ l2 ->
  (length (l1 ++ b :: l2) < 1023)%nat ->
  exists a w',
    ReadLine vwErrMsg w = Ok (Some a, EmptyString, w') /\
    line_at a w' = Some l1 /\
    f_pending (w_stdin w') = rest.
Proof.
  intros Hw Hi Hpend Hb H0 H1 H2 Hl2 Hlen.
  assert (LF ∉ l1 ++ b :: l2) as Hnot.
  { intros Hin. apply elem_of_app in Hin as [Hin | Hin]; [tauto|].
    apply elem_of_cons in Hin as [Hin | Hin]; [|tauto].
    destruct Hb as [-> | ->]; discriminate. }
  destruct (ReadLine_delivers_reachable w vwErrMsg
              ((l1 ++ b :: l2) ++ [LF]) rest AtNewline Hw Hi)
    as (a & w' & _ & Hr & Hline & Hstdin & _).
  - rewrite Hpend. apply getline_line; [exact Hnot | lia].
  - discriminate.
  - exists a, w'. split; [exact Hr|]. rewrite Hstdin. split; [|reflexivity].
    rewrite Hline, <- !app_assoc. simpl.
    rewrite before_terminator_stop; auto. tauto.
Qed.

(** X6. Lines come out in order through the one buffer: when [stdin]
    holds the lines [ls], each LF-free, shorter than 1023 bytes and ended
    by LF, that many calls of [ReadLine] return them one by one (each up
    to its first NUL or CR), always through the same pointer, and leave
    the stream right behind the last of them. *)
Theorem read_lines_in_order (ls : list (list MIchar)) :
  forall (w : World) (rest : list MIchar),
    reachable w ->
    m_bInitialized (w_this w) = true ->
    f_pending (w_stdin w) = concat (map (fun l => l ++ [LF]) ls) ++ rest ->
    Forall (fun l => (LF ∉ l) /\ (length l < 1023)%nat) ls ->
    exists w',
      read_lines (length ls) w
      = Ok (map (fun l => Some (before_terminator l)) ls, w') /\
      f_pending (w_stdin w') = rest /\
      w_this w' = w_this w.
Proof.
  induction ls as [|l ls IH]; intros w rest Hw Hi Hpend Hall.
  - exists w. simpl in *. auto.
  - apply Forall_cons in Hall as [[Hnot Hlen] Hall].
    simpl in Hpend. rewrite <- !app_assoc in Hpend. simpl in Hpend.
    destruct (ReadLine_delivers_reachable w EmptyString (l ++ [LF])
                (concat (map (fun l => l ++ [LF]) ls) ++ rest)
                AtNewline Hw Hi)
      as (a & w1 & _ & Hr & Hline & Hstdin & Hthis & _).
    { rewrite Hpend. apply getline_line; [exact Hnot | lia]. }
    { discriminate. }
    assert (reachable w1) as Hw1.
    { apply (reach_exec (OpReadLine EmptyString) w); [exact Hw|].
      simpl. rewrite Hr. reflexivity. }
    destruct (IH w1 rest Hw1) as (w' & Hrest & Hp' & Hthis');
      [congruence | rewrite Hstdin; reflexivity | exact Hall |].
    exists w'. simpl. rewrite Hr. simpl. rewrite Hrest. simpl.
    rewrite Hline, before_terminator_app_LF.
    split; [reflexivity|]. split; [exact Hp' | congruence].
Qed.

(** X7. A read error loses the bytes read before it: when [stdin] fails
    with [errno = e] after the bytes [l] (no LF, fewer than 1023), and
    [e] is not [EAGAIN] or [l] is empty, [ReadLine] returns the null
    pointer with the message [strerror(e)]; the bytes [l] have been taken
    from the stream and are not returned. *)
Theorem ReadLine_read_error (w : World) (vwErrMsg : string)
    (l : list MIchar) (e : Z) :
  reachable w ->
  m_bInitialized (w_this w) = true ->
  f_pending (w_stdin w) = l ->
  f_end (w_stdin w) = ReadError e ->
  e <> EAGAIN \/ l = [] ->
  LF ∉ l ->
  (length l < 1023)%nat ->
  exists w',
    ReadLine vwErrMsg w = Ok (None, strerror e, w') /\
    f_pending (w_stdin w') = [] /\
    f_err (w_stdin w') = true /\
    w_errno w' = e.
Proof.
  intros Hw Hi Hpend Hend Hagain Hnot Hlen.
  destruct (initialised_live w Hw Hi) as (Hcap & Hs & a & buf & Ha & Hb & Hl).
  assert (f_eof (w_stdin w) = false) as Heof.
  { destruct (f_eof (w_stdin w)) eqn:Heof; [|reflexivity].
    destruct (reachable_eof_drained w Hw Hi Heof) as [_ He]. congruence. }
  unfold ReadLine. rewrite Ha, Hb.
  rewrite (fgets_eq _ _ _ _ l [] AtEnd);
    [| rewrite Hcap; lia | rewrite Hcap, Hl; simpl; lia | exact Heof
     | rewrite Hcap, Hpend; apply getline_drained; [exact Hnot | simpl; lia]].
  rewrite Hend.
  destruct l as [|b l].
  - simpl. rewrite Hs. unfold ferror. simpl. eexists. repeat split.
  - destruct Hagain as [Hne | Habs]; [|discriminate].
    destruct (Z.eqb_spec e EAGAIN); [contradiction|].
    simpl. rewrite Hs. unfold ferror. simpl. eexists. repeat split.
Qed.

(** X8. [ReadLine] tells an error by the error indicator of the stream,
    not by what its own read met: with the indicator already set on
    entry and a clean end-of-file, it returns the null pointer and
    [strerror(errno)]. A run of [Initialize] clears the indicator, so on
    the same stream the [ReadLine] after it returns the null pointer and
    an empty message. *)
Theorem ReadLine_reports_stale_error (w : World) (vwErrMsg : string)
    (a : addr) (buf : list MIchar) :
  m_pCmdBuffer (w_this w) = Some a ->
  w_heap w !! a = Some buf ->
  m_pStdin (w_this w) = Some stdin_ptr ->
  (1 < m_constBufferSize (w_this w))%Z ->
  f_pending (w_stdin w) = [] ->
  f_end (w_stdin w) = EndOfFile ->
  f_err (w_stdin w) = true ->
  (exists w', ReadLine vwErrMsg w = Ok (None, strerror (w_errno w), w')) /\
  (forall w1 : World,
     m_bInitialized (w_this w1) = false ->
     m_constBufferSize (w_this w1) = m_constBufferSize (w_this w) ->
     w_stdin w1 = w_stdin w ->
     fst (Initialize w1) = MIstatus.success ->
     exists w2,
       ReadLine vwErrMsg (snd (Initialize w1)) = Ok (None, EmptyString, w2)).
Proof.
  intros Ha Hb Hs Hcap Hpend Hend Herr.
  assert (getline (Z.to_nat (m_constBufferSize (w_this w) - 1)) []
          = ([], [], AtEnd)) as Hg.
  { destruct (Z.to_nat (m_constBufferSize (w_this w) - 1)) eqn:Hc; [lia|].
    reflexivity. }
  split.
  - unfold ReadLine, fgets. rewrite Ha, Hb.
    destruct (Z.leb_spec (m_constBufferSize (w_this w)) 0); [lia|].
    destruct (f_eof (w_stdin w) && (1 <? m_constBufferSize (w_this w))%Z).
    + simpl. rewrite Hs. unfold ferror. simpl. rewrite Herr. simpl.
      eexists. reflexivity.
    + rewrite Hpend, Hg, Hend. simpl. rewrite Hs. unfold ferror. simpl.
      rewrite Herr. simpl. eexists. reflexivity.
  - intros w1 Hi1 Hcap1 Hstdin1. rewrite Initialize_eq, Hi1.
    destruct (bring_up (w_registry w1)) as [[reg bOk] errMsg].
    destruct bOk; [|discriminate]. intros _. simpl.
    unfold ReadLine, fgets. simpl. rewrite lookup_insert_eq.
    rewrite Hcap1, Hstdin1.
    destruct (Z.leb_spec (m_constBufferSize (w_this w)) 0); [lia|].
    rewrite Hpend, Hg, Hend. simpl. eexists. reflexivity.
Qed.

(** ** The heap over a whole life of the object *)

Lemma owns_one_block_exec (h0 : gmap addr (list MIchar)) (o : op)
    (w w' : World) :
  owns_one_block h0 w -> exec o w = Ok w' -> owns_one_block h0 w'.
Proof.
  intros Hown. destruct o; simpl.
  - intros [= <-]. rewrite Initialize_eq.
    destruct Hown as [(Hi & Hb & Hh) | (Hi & Hrest)].
    + rewrite Hi. destruct (bring_up (w_registry w)) as [[reg bOk] errMsg].
      destruct bOk; simpl.
      * right. split; [reflexivity|]. eexists _, _. simpl.
        split; [reflexivity|]. rewrite Hh.
        split; [|reflexivity]. apply not_elem_of_dom, is_fresh.
      * left. auto.
    + rewrite Hi. right. auto.
  - rewrite Shutdown_eq.
    destruct Hown as [(Hi & Hb & Hh) | (Hi & a & buf & Ha & Hfree & Hh)];
      rewrite Hi.
    + simpl. intros [= <-]. left. auto.
    + rewrite Ha, Hh, lookup_insert_eq. simpl.
      rewrite (delete_insert_id _ _ _ Hfree).
      destruct (tear_down (w_registry w)) as [[reg bOk] errMsg].
      destruct bOk; simpl; intros [= <-]; left; auto.
  - intros [= <-]. unfold InputAvailable. rewrite run_world. simpl.
    destruct (interrupt_free sched); exact Hown.
  - destruct (ReadLine vwErrMsg w) as [[[p msg] w1]|] eqn:Hr; [|discriminate].
    simpl. intros [= <-].
    destruct (ReadLine_this _ _ _ _ _ Hr)
      as (Hthis & a & buf & buf' & Ha & Hb & Hheap & _).
    destruct Hown as [(Hi & Hnone & Hh) | (Hi & a0 & buf0 & Ha0 & Hfree & Hh)];
      [congruence|].
    right. rewrite Hthis. split; [exact Hi|].
    exists a0, buf'. split; [exact Ha0|]. split; [exact Hfree|].
    assert (a = a0) as -> by congruence.
    rewrite Hheap, Hh. apply insert_insert_eq.
  - intros [= <-]. exact Hown.
Qed.

(** X9. Nothing leaks and nothing foreign is touched: started on any heap
    [h0], after any calls the heap is [h0] when the reader is not
    initialised and [h0] plus the one buffer block when it is, and the
    destructor gives back exactly [h0]. *)
Theorem dtor_restores_heap (os : list op) (h0 : gmap addr (list MIchar))
    (f : FILE) (e : Z) (reg : Registry) (w : World) :
  exec_all os (mkWorld ctor h0 f e reg) = Ok w ->
  owns_one_block h0 w /\
  exists w', dtor w = Ok w' /\ w_heap w' = h0 /\
             m_pCmdBuffer (w_this w') = None.
Proof.
  intros Hex.
  assert (owns_one_block h0 w) as Hown.
  { assert (owns_one_block h0 (mkWorld ctor h0 f e reg)) as H0
      by (left; auto).
    revert H0 Hex. generalize (mkWorld ctor h0 f e reg).
    induction os as [|o os IH]; intros w0 H0; simpl.
    - intros [= <-]. exact H0.
    - destruct (exec o w0) as [w1|] eqn:Hex1; [|discriminate]. simpl.
      apply IH. eapply owns_one_block_exec; eauto. }
  split; [exact Hown|].
  destruct (dtor w) as [w'|flt] eqn:Hd.
  - pose proof (owns_one_block_exec h0 OpShutdown w w' Hown Hd) as Hown'.
    exists w'. split; [reflexivity|].
    assert (m_bInitialized (w_this w') = false) as Hi'.
    { unfold dtor in Hd. destruct (Shutdown w) as [[s w1]|] eqn:Hs;
        [|discriminate]. simpl in Hd. injection Hd as <-.
      revert Hs. rewrite Shutdown_eq.
      destruct (m_bInitialized (w_this w)) eqn:Hi.
      - destruct (m_pCmdBuffer (w_this w)) as [a|];
          [destruct (w_heap w !! a); [|discriminate]|]; simpl;
          destruct (tear_down (w_registry w)) as [[reg' bOk] errMsg];
          destruct bOk; intros [= <- <-]; reflexivity.
      - intros [= <- <-]. exact Hi. }
    destruct Hown' as [(_ & Hb & Hh) | (Hi & _)]; [auto | congruence].
  - exfalso. unfold dtor in Hd. rewrite Shutdown_eq in Hd.
    destruct Hown as [(Hi & _) | (Hi & a & buf & Ha & _ & Hh)];
      rewrite Hi in Hd; [discriminate|].
    rewrite Ha, Hh, lookup_insert_eq in Hd. simpl in Hd.
    destruct (tear_down (w_registry w)) as [[reg' bOk] errMsg].
    destruct bOk; discriminate.
Qed.

(** X10. [Shutdown] frees nothing but the reader's buffer and leaves
    [stdin] as it is: the stream, its indicators and [errno] are
    unchanged (it is neither closed nor cleared), and so is every heap
    block other than the one behind [m_pCmdBuffer]. *)
Theorem Shutdown_frame (w : World) (s : bool) (w' : World) :
  Shutdown w = Ok (s, w') ->
  w_stdin w' = w_stdin w /\
  w_errno w' = w_errno w /\
  m_constBufferSize (w_this w') = m_constBufferSize (w_this w) /\
  forall a', m_pCmdBuffer (w_this w) <> Some a' ->
             w_heap w' !! a' = w_heap w !! a'.
Proof.
  rewrite Shutdown_eq.
  destruct (m_bInitialized (w_this w));
    [|intros [= <- <-]; repeat split; reflexivity].
  destruct (m_pCmdBuffer (w_this w)) as [a|];
    [destruct (w_heap w !! a); [|discriminate]|]; simpl;
    destruct (tear_down (w_registry w)) as [[reg bOk] errMsg];
    destruct bOk; intros [= <- <-]; simpl; repeat split; try reflexivity;
    intros a' Hne; apply lookup_delete_ne; congruence.
Qed.

(** X16. [ReadLine] writes nowhere but into its buffer: the object and
    the module singletons are unchanged and so is every heap block other
    than the one behind [m_pCmdBuffer], which keeps its size. *)
Theorem ReadLine_frame (w : World) (vwErrMsg : string) p msg (w' : World) :
  ReadLine vwErrMsg w = Ok (p, msg, w') ->
  w_this w' = w_this w /\
  w_registry w' = w_registry w /\
  (forall a', m_pCmdBuffer (w_this w) <> Some a' ->
              w_heap w' !! a' = w_heap w !! a') /\
  (forall a buf,
     m_pCmdBuffer (w_this w) = Some a -> w_heap w !! a = Some buf ->
     exists buf', w_heap w' !! a = Some buf' /\ length buf' = length buf).
Proof.
  intros Hr.
  destruct (ReadLine_this _ _ _ _ _ Hr)
    as (Hthis & a & buf & buf' & Ha & Hb & Hheap & Hlen).
  split; [exact Hthis|]. split.
  { revert Hr. unfold ReadLine. rewrite Ha, Hb.
    destruct (fgets buf _ _ _) as [r|]; [|discriminate]. simpl.
    destruct (fg_ret r); simpl.
    - destruct (strip_newline (fg_buf r)); [|discriminate].
      intros [= <- <- <-]. reflexivity.
    - destruct (m_pStdin (w_this w)) as [[]|]; [|discriminate].
      intros [= <- <- <-]. reflexivity. }
  split.
  - intros a' Hne. rewrite Hheap. apply lookup_insert_ne. congruence.
  - intros a1 buf1 Ha1 Hb1. assert (a1 = a) as -> by congruence.
    exists buf'. rewrite Hheap, lookup_insert_eq. split; [reflexivity|].
    congruence.
Qed.

(** X17. [Initialize] reads nothing and clobbers nothing: the bytes
    pending on [stdin] and [errno] are unchanged, every block that was
    live is still there with its contents, and when it runs its start-up
    path (the reader was not initialised) both indicators of [stdin] are
    cleared, whether the modules started or not. *)
Theorem Initialize_frame (w : World) :
  f_pending (w_stdin (snd (Initialize w))) = f_pending (w_stdin w) /\
  f_end (w_stdin (snd (Initialize w))) = f_end (w_stdin w) /\
  w_errno (snd (Initialize w)) = w_errno w /\
  (forall a buf, w_heap w !! a = Some buf ->
                 w_heap (snd (Initialize w)) !! a = Some buf) /\
  (m_bInitialized (w_this w) = false ->
   f_err (w_stdin (snd (Initialize w))) = false /\
   f_eof (w_stdin (snd (Initialize w))) = false).
Proof.
  rewrite Initialize_eq.
  destruct (m_bInitialized (w_this w));
    [repeat split; auto; discriminate|].
  destruct (bring_up (w_registry w)) as [[reg bOk] errMsg].
  destruct bOk; simpl; repeat split; auto.
  intros a buf Hb. rewrite lookup_insert_ne; [exact Hb|].
  intros <-. pose proof (is_fresh (dom (w_heap w))) as Hfresh.
  apply not_elem_of_dom in Hfresh. congruence.
Qed.

(** ** More on the polling loop *)

Lemma run_split (pre post : list event) (s : World * call) :
  run (pre ++ post) s = run post (run pre s).
Proof. apply fold_left_app. Qed.

Lemma exec_all_stays_cancelled (os : list op) :
  forall w w' : World,
    exec_all os w = Ok w' ->
    m_waitForInput (w_this w) = false ->
    m_waitForInput (w_this w') = false.
Proof.
  induction os as [|o os IH]; intros w w'; simpl.
  - intros [= <-] Hf. exact Hf.
  - destruct (exec o w) as [w1|] eqn:Hex; [|discriminate]. simpl.
    intros Hall Hf. apply (IH w1 w' Hall).
    rewrite (exec_waitForInput _ _ _ Hex), Hf.
    destruct (interrupts o); reflexivity.
Qed.

(** X11. One interrupt ends waiting for good: once [m_waitForInput] is
    false, then after any further calls, [Shutdown] and [Initialize]
    included, every [InputAvailable] returns failure as soon as its
    caller moves, without one [::select] and without writing
    [vwbAvail]. *)
Theorem InputAvailable_cancelled_for_good (os : list op) (w w' : World)
    (avail : bool) (sched : list event) :
  m_waitForInput (w_this w) = false ->
  exec_all os w = Ok w' ->
  (1 <= consumer_steps sched)%nat ->
  snd (InputAvailable avail sched w')
  = mkCall (Returned MIstatus.failure) avail 0.
Proof.
  intros Hf Hex Hn.
  apply InputAvailable_cancelled; [|exact Hn].
  eapply exec_all_stays_cancelled; eauto.
Qed.

Lemma run_timeouts (k : nat) :
  forall (w : World) (c : call),
    m_waitForInput (w_this w) = true ->
    c_pc c = AtLoopTest ->
    run (timeouts k) (w, c)
    = (w, mkCall AtLoopTest (vwbAvail c) (k + c_polls c)).
Proof.
  induction k as [|k IH]; intros w c Hf Hpc.
  - destruct c; simpl in *. subst. reflexivity.
  - simpl timeouts. rewrite !run_cons. simpl. unfold consumer_step at 2.
    rewrite Hpc, Hf. unfold consumer_step. simpl.
    rewrite IH by auto. simpl. f_equal. f_equal. lia.
Qed.

(** X13. With [m_waitForInput] true and no interrupt, after [k] timed-out
    polls the first [::select] that returns [r <> 0] decides the call:
    [-1] gives failure with [vwbAvail] false, any other value gives
    success with [vwbAvail] true; [k + 1] polls were issued. *)
Theorem InputAvailable_after_timeouts (w : World) (avail : bool)
    (k : nat) (x r : Z) :
  m_waitForInput (w_this w) = true ->
  r <> 0%Z ->
  InputAvailable avail (timeouts k ++ [Consumer x; Consumer r]) w
  = (w, mkCall (Returned (negb (r =? -1)%Z)) (negb (r =? -1)%Z) (S k)).
Proof.
  intros Hf Hr. unfold InputAvailable.
  rewrite run_split, run_timeouts by auto.
  rewrite !run_cons. simpl. unfold consumer_step at 2. simpl. rewrite Hf.
  unfold consumer_step. simpl.
  destruct (Z.eqb_spec r 0); [contradiction|].
  replace (k + 0)%nat with k by lia.
  destruct (r =? -1)%Z; reflexivity.
Qed.

(** X12. Left alone, the call never returns: with [m_waitForInput] true,
    no interrupt and every [::select] timing out, [InputAvailable] has
    not returned after any number of moves, and [vwbAvail] is
    untouched. *)
Theorem InputAvailable_waits (sched : list event) (w : World) (avail : bool) :
  m_waitForInput (w_this w) = true ->
  Forall (fun ev => ev = Consumer 0) sched ->
  (forall status,
     c_pc (snd (InputAvailable avail sched w)) <> Returned status) /\
  vwbAvail (snd (InputAvailable avail sched w)) = avail /\
  fst (InputAvailable avail sched w) = w.
Proof.
  intros Hf Hall. unfold InputAvailable.
  assert (forall c : call,
            (forall status, c_pc c <> Returned status) ->
            (forall status,
               c_pc (snd (run sched (w, c))) <> Returned status) /\
            vwbAvail (snd (run sched (w, c))) = vwbAvail c /\
            fst (run sched (w, c)) = w) as Hgen.
  { induction Hall as [|ev sched Hev Hall IH]; intros c Hc.
    - simpl. auto.
    - subst ev. rewrite run_cons. simpl.
      destruct (IH (consumer_step 0 w c)) as (H1 & H2 & H3).
      + unfold consumer_step. destruct (c_pc c) eqn:Hpc.
        * rewrite Hf. simpl. discriminate.
        * simpl. discriminate.
        * exfalso. eapply Hc; eauto.
      + split; [exact H1|]. split; [|exact H3]. rewrite H2.
        unfold consumer_step. destruct (c_pc c) eqn:Hpc.
        * rewrite Hf. reflexivity.
        * reflexivity.
        * reflexivity. }
  apply Hgen. simpl. discriminate.
Qed.

Lemma call_outcome_step (avail : bool) (ev : event) (s : World * call) :
  call_outcome avail (fst s) (snd s) ->
  call_outcome avail (fst (step ev s)) (snd (step ev s)).
Proof.
  destruct s as [w c]. unfold call_outcome. destruct ev; simpl.
  - destruct (c_pc c) as [| ? ? |[|]]; auto.
    intros [H | [H _]]; [left; exact H | right; auto].
  - unfold consumer_step. destruct (c_pc c) as [| ? ? |[|]] eqn:Hpc; simpl.
    + destruct (m_waitForInput (w_this w)) eqn:Hf; simpl.
      * intros ->. split; [reflexivity | lia].
      * intros ->. right. auto.
    + intros [Hv Hp].
      destruct (ret =? 0)%Z; [exact Hv|].
      destruct (ret =? -1)%Z; simpl; auto.
    + rewrite Hpc. auto.
    + rewrite Hpc. auto.
Qed.

(** X14. What a caller can read off a call of [InputAvailable], under
    any schedule: success comes with [vwbAvail] true and after at least
    one [::select]; failure comes either with [vwbAvail] false after a
    failed [::select], or with [vwbAvail] as the caller left it and
    [m_waitForInput] false; and as long as the call has not returned,
    [vwbAvail] is as the caller left it. *)
Theorem InputAvailable_outcomes (sched : list event) (w : World)
    (avail : bool) :
  call_outcome avail (fst (InputAvailable avail sched w))
               (snd (InputAvailable avail sched w)).
Proof.
  unfold InputAvailable.
  assert (call_outcome avail (fst (w, enter avail)) (snd (w, enter avail)))
    as H0 by reflexivity.
  revert H0. generalize (w, enter avail).
  induction sched as [|ev sched IH]; intros s0 H0; [exact H0|].
  rewrite run_cons. apply IH, call_outcome_step, H0.
Qed.

(** X15. [InterruptReadLine] does not stop [ReadLine]: [ReadLine] never
    looks at [m_waitForInput], so after an interrupt it reads and
    returns just what it would have, the flag apart. *)
Theorem ReadLine_ignores_interrupt (w : World) (vwErrMsg : string) :
  ReadLine vwErrMsg (InterruptReadLine w)
  = match ReadLine vwErrMsg w with
    | Ok (p, msg, w') => Ok (p, msg, InterruptReadLine w')
    | Undefined flt => Undefined flt
    end.
Proof.
  unfold ReadLine, InterruptReadLine, with_this. simpl.
  destruct (m_pCmdBuffer (w_this w)) as [a|]; [|reflexivity].
  destruct (w_heap w !! a) as [buf|]; [|reflexivity].
  destruct (fgets buf _ _ _) as [r|]; [|reflexivity]. simpl.
  destruct (fg_ret r); simpl.
  - destruct (strip_newline (fg_buf r)); reflexivity.
  - destruct (m_pStdin (w_this w)) as [[]|]; reflexivity.
Qed.

End Further.

(** * The further properties on concrete worlds *)

Ltac not_among :=
  let Hin := fresh "Hin" in
  intros Hin;
  repeat (apply elem_of_cons in Hin as [Hin | Hin]; [discriminate|]);
  inversion Hin.

Lemma initialised_on_reachable (text : list MIchar) :
  reachable (initialised_on text).
Proof.
  apply (reach_exec OpInitialize (fresh_world [] text));
    [apply reach_ctor | reflexivity].
Qed.

Lemma failing_after_reachable (text : list MIchar) (e : Z) :
  reachable (failing_after text e).
Proof.
  apply (reach_exec OpInitialize
           (@mkWorld scripted ctor ∅ (mkFILE text (ReadError e) false false)
                     0%Z []));
    [apply reach_ctor | reflexivity].
Qed.

Lemma LF_not_in_long_line : LF ∉ long_line.
Proof.
  unfold long_line. intros Hin. apply elem_of_replicate in Hin as [Heq _].
  discriminate.
Qed.

Lemma ReadLine_defined_witness :
  exists p msg w',
    ReadLine EmptyString (initialised_on (bytes_of "a" ++ [NUL; CR])) 
    = Ok (p, msg, w').
Proof.
  destruct (ReadLine_defined (initialised_on (bytes_of "a" ++ [NUL; CR]))
              EmptyString (initialised_on_reachable _) eq_refl)
    as (p & msg & w' & Hr & _).
  exists p, msg, w'. exact Hr.
Defined.

Lemma ReadLine_line_from_consumed_witness :
  match ReadLine EmptyString ready_world with
  | Ok (Some p, msg, w') =>
      m_pCmdBuffer (w_this ready_world) = Some p /\ msg = EmptyString
  | _ => False
  end.
Proof.
  destruct (ReadLine EmptyString ready_world) as [[[[p|] msg] w']|flt] eqn:Hr.
  - destruct (ReadLine_line_from_consumed _ _ _ _ _ Hr) as (Hp & Hm & _).
    split; [exact Hp | exact Hm].
  - vm_compute in Hr. discriminate.
  - vm_compute in Hr. discriminate.
Defined.

Lemma ReadLine_truncates_long_line_witness :
  exists a w',
    ReadLine EmptyString (initialised_on (long_line ++ bytes_of "bc"))
    = Ok (Some a, EmptyString, w') /\
    line_at a w' = Some long_line /\
    f_pending (w_stdin w') = bytes_of "bc".
Proof.
  destruct (ReadLine_truncates_long_line
              (initialised_on (long_line ++ bytes_of "bc")) EmptyString
              long_line (bytes_of "bc") (initialised_on_reachable _) eq_refl)
    as (a & w' & Hr & Hline & Hrest & _).
  - reflexivity.
  - reflexivity.
  - exact LF_not_in_long_line.
  - exists a, w'. split; [exact Hr|]. split; [|exact Hrest].
    rewrite Hline. vm_compute. reflexivity.
Defined.

Lemma ReadLine_last_line_without_newline_witness :
  exists a w',
    ReadLine EmptyString (initialised_on (bytes_of "quit"))
    = Ok (Some a, EmptyString, w') /\
    line_at a w' = Some (bytes_of "quit") /\
    exists w'', ReadLine EmptyString w' = Ok (None, EmptyString, w'').
Proof.
  destruct (ReadLine_last_line_without_newline
              (initialised_on (bytes_of "quit")) EmptyString (bytes_of "quit")
              (initialised_on_reachable _) eq_refl)
    as (a & w' & Hr & Hline & _ & _ & w'' & Hr2).
  - reflexivity.
  - reflexivity.
  - discriminate.
  - not_among.
  - simpl. lia.
  - exists a, w'. split; [exact Hr|]. split; [exact Hline|].
    exists w''. exact Hr2.
Defined.

Lemma ReadLine_drops_rest_of_line_witness :
  exists a w',
    ReadLine EmptyString
      (initialised_on ((bytes_of "ab" ++ CR :: bytes_of "cd")
                       ++ LF :: bytes_of "ef"))
    = Ok (Some a, EmptyString, w') /\
    line_at a w' = Some (bytes_of "ab") /\
    f_pending (w_stdin w') = bytes_of "ef".
Proof.
  apply (ReadLine_drops_rest_of_line
           (initialised_on ((bytes_of "ab" ++ CR :: bytes_of "cd")
                            ++ LF :: bytes_of "ef"))
           EmptyString (bytes_of "ab") (bytes_of "cd") (bytes_of "ef") CR
           (initialised_on_reachable _) eq_refl eq_refl).
  - left. reflexivity.
  - not_among.
  - not_among.
  - not_among.
  - not_among.
  - simpl. lia.
Defined.

Lemma read_lines_in_order_witness :
  exists w',
    read_lines 2
      (initialised_on ((bytes_of "step" ++ [LF]) ++ (bytes_of "next" ++ [LF])
                       ++ bytes_of "q"))
    = Ok ([Some (bytes_of "step"); Some (bytes_of "next")], w') /\
    f_pending (w_stdin w') = bytes_of "q".
Proof.
  destruct (read_lines_in_order [bytes_of "step"; bytes_of "next"]
              (initialised_on ((bytes_of "step" ++ [LF])
                               ++ (bytes_of "next" ++ [LF]) ++ bytes_of "q"))
              (bytes_of "q") (initialised_on_reachable _) eq_refl)
    as (w' & Hr & Hrest & _).
  - reflexivity.
  - repeat constructor; try not_among; simpl; lia.
  - exists w'. split; [exact Hr | exact Hrest].
Defined.

Lemma ReadLine_read_error_witness :
  exists w',
    ReadLine EmptyString (failing_after (bytes_of "st") 5)
    = Ok (None, "Input/output error"%string, w') /\
    f_pending (w_stdin w') = [].
Proof.
  destruct (ReadLine_read_error (failing_after (bytes_of "st") 5) EmptyString
              (bytes_of "st") 5%Z (failing_after_reachable _ _) eq_refl)
    as (w' & Hr & Hrest & _).
  - reflexivity.
  - reflexivity.
  - left. discriminate.
  - not_among.
  - simpl. lia.
  - exists w'. split; [exact Hr | exact Hrest].
Defined.

Lemma ReadLine_reports_stale_error_witness :
  (exists w',
     ReadLine EmptyString stale_world
     = Ok (None, "Input/output error"%string, w')) /\
  (exists w2,
     ReadLine EmptyString (snd (Initialize stale_start))
     = Ok (None, EmptyString, w2)).
Proof.
  destruct (ReadLine_reports_stale_error stale_world EmptyString 0%nat
              (replicate 1024 NUL)) as [Hstale Hfresh];
    try reflexivity.
  split; [exact Hstale|].
  apply (Hfresh stale_start); reflexivity.
Defined.

Lemma dtor_restores_heap_witness :
  match exec_all [OpInitialize; OpReadLine EmptyString; OpShutdown;
                  OpInitialize]
                 (@mkWorld scripted ctor foreign_heap (stream_of step_line)
                           0%Z []) with
  | Ok w => exists w', dtor w = Ok w' /\ w_heap w' = foreign_heap
  | Undefined _ => False
  end.
Proof.
  destruct (exec_all _ _) as [w|flt] eqn:Hex.
  - destruct (dtor_restores_heap _ _ _ _ _ _ Hex) as (_ & w' & Hd & Hh & _).
    exists w'. split; [exact Hd | exact Hh].
  - vm_compute in Hex. discriminate.
Defined.

Lemma Shutdown_frame_witness :
  w_stdin (after_Shutdown ready_world) = w_stdin ready_world /\
  w_heap (after_Shutdown stubborn_world) !! 7%nat
  = w_heap stubborn_world !! 7%nat.
Proof.
  destruct (Shutdown_frame ready_world MIstatus.success
              (after_Shutdown ready_world)) as (Hs & _);
    [vm_compute; reflexivity|].
  destruct (Shutdown_frame stubborn_world MIstatus.success
              (after_Shutdown stubborn_world)) as (_ & _ & _ & Hh);
    [vm_compute; reflexivity|].
  split; [exact Hs|]. apply Hh. vm_compute. discriminate.
Defined.

Lemma ReadLine_frame_witness :
  match ReadLine EmptyString ready_world with
  | Ok (_, _, w') =>
      w_this w' = w_this ready_world /\
      w_registry w' = w_registry ready_world
  | Undefined _ => False
  end.
Proof.
  destruct (ReadLine EmptyString ready_world) as [[[p msg] w']|flt] eqn:Hr.
  - destruct (ReadLine_frame _ _ _ _ _ Hr) as (Ht & Hreg & _).
    split; [exact Ht | exact Hreg].
  - vm_compute in Hr. discriminate.
Defined.

Lemma Initialize_frame_witness :
  f_err (w_stdin (snd (Initialize stale_start))) = false /\
  f_eof (w_stdin (snd (Initialize stale_start))) = false /\
  w_errno (snd (Initialize stale_start)) = 5%Z.
Proof.
  destruct (Initialize_frame stale_start) as (_ & _ & He & _ & Hclr).
  destruct (Hclr eq_refl) as [Herr Heof].
  split; [exact Herr|]. split; [exact Heof | exact He].
Defined.

Lemma InputAvailable_cancelled_for_good_witness :
  match exec_all [OpShutdown; OpInitialize] (InterruptReadLine ready_world) with
  | Ok w' =>
      snd (InputAvailable true [Consumer 1] w')
      = mkCall (Returned MIstatus.failure) true 0
  | Undefined _ => False
  end.
Proof.
  destruct (exec_all _ _) as [w'|flt] eqn:Hex.
  - apply (InputAvailable_cancelled_for_good [OpShutdown; OpInitialize]
             (InterruptReadLine ready_world) w' true [Consumer 1%Z]
             eq_refl Hex).
    simpl. lia.
  - vm_compute in Hex. discriminate.
Defined.

Lemma InputAvailable_waits_witness :
  c_pc (snd (InputAvailable false (timeouts 3 ++ [Consumer 0]) ready_world))
  <> Returned MIstatus.failure /\
  c_pc (snd (InputAvailable false (timeouts 3 ++ [Consumer 0]) ready_world))
  <> Returned MIstatus.success /\
  vwbAvail (snd (InputAvailable false (timeouts 3 ++ [Consumer 0]) ready_world))
  = false.
Proof.
  destruct (InputAvailable_waits (timeouts 3 ++ [Consumer 0%Z]) ready_world
              false) as (Hnot & Hv & _).
  - reflexivity.
  - repeat constructor.
  - split; [apply Hnot|]. split; [apply Hnot | exact Hv].
Defined.

Lemma InputAvailable_after_timeouts_witness :
  InputAvailable false (timeouts 2 ++ [Consumer 0; Consumer 1]) ready_world
  = (ready_world, mkCall (Returned MIstatus.success) true 3) /\
  InputAvailable true (timeouts 0 ++ [Consumer 0; Consumer (-1)]) ready_world
  = (ready_world, mkCall (Returned MIstatus.failure) false 1).
Proof.
  split.
  - apply (InputAvailable_after_timeouts ready_world false 2 0%Z 1%Z);
      [reflexivity | discriminate].
  - apply (InputAvailable_after_timeouts ready_world true 0 0%Z (-1)%Z);
      [reflexivity | discriminate].
Defined.
